(** * The co-purchase recommender of the shop ([app/shop/recommender.py])

    A shallow embedding of the [Recommender] class together with the part of
    the Redis client and of the product catalog that it talks to, followed by
    the properties of the engine.

    Modelling choices, all visible in the definitions below:
    - the Redis server is a finite map from key names to sorted sets, a sorted
      set being a finite map from members to scores;
    - redis-py sends an [int] member as its decimal text and line 106 of the
      source reads it back with [int(..)]; the model names a member by the
      integer it renders, and uses the rendering ([pretty], which is
      injective) wherever the bytes matter: key names and the tie order of
      range reads;
    - scores are co-purchase counts and are kept as integers;
    - every client call may raise; the calls still to come succeed or raise
      according to a schedule carried by the world, and each call is logged;
    - the catalog is the list of product rows in the order in which a query
      returns them, which is arbitrary for the engine. *)

From stdpp Require Import gmap strings pretty sorting list fin_maps.


Open Scope Z_scope.

(** ** Results, exceptions and the world *)

(** The exceptions that can leave the recommender: [RedisError] stands for
    the connection-level failures of a client call, [ResponseError] (a
    subclass of [RedisError] in redis-py) for a command the server refuses,
    [ValueError] for [list.index] on an absent element. *)
Inductive exn := RedisError | ResponseError | ValueError.

Definition is_RedisError (e : exn) : bool :=
  match e with RedisError | ResponseError => true | ValueError => false end.

Inductive result (A : Type) :=
| Ok (a : A)
| Raise (e : exn).
Arguments Ok {A} a.
Arguments Raise {A} e.

(** The commands the recommender issues, as they reach the client. *)
Inductive call :=
| PING
| ZINCRBY (key : string) (amount : Z) (member : Z)
| ZRANGE_DESC (key : string)
| ZUNIONSTORE (dest : string) (keys : list string)
| ZREM (key : string) (members : list Z)
| DEL (key : string).

Global Instance call_eq_dec : EqDecision call.
Proof. solve_decision. Defined.

(** [db]: the server's keyspace. [faults]: outcome of the client calls still
    to come, [true] for a call that raises [RedisError]; past the end of the
    list every call succeeds. [log]: the calls issued so far, oldest first. *)
Record world := World {
  db : gmap string (gmap Z Z);
  faults : list bool;
  log : list call
}.

Definition M (A : Type) : Type := world → result A * world.

Global Instance M_ret : MRet M := λ A a w, (Ok a, w).
Global Instance M_bind : MBind M := λ A B k m w,
  match m w with
  | (Ok a, w') => k a w'
  | (Raise e, w') => (Raise e, w')
  end.

Definition raise {A} (e : exn) : M A := λ w, (Raise e, w).

(** [try: m except RedisError: h] *)
Definition try_except_RedisError {A} (m : M A) (h : M A) : M A :=
  λ w, match m w with
       | (Raise e, w') => if is_RedisError e then h w' else (Raise e, w')
       | r => r
       end.

(** A [for] loop whose body returns nothing. *)
Fixpoint for_ {A} (l : list A) (body : A → M ()) : M () :=
  match l with
  | [] => mret ()
  | x :: l' => body x;; for_ l' body
  end.

(** ** The Redis client *)

Module Redis.

(** A client call: logged, then either raising by the schedule or applying
    its effect to the keyspace. A call that raises leaves the keyspace as it
    was. *)
Definition execute {A} (c : call)
    (eff : gmap string (gmap Z Z) → result A * gmap string (gmap Z Z)) : M A :=
  λ w,
    match faults w with
    | true :: fs => (Raise RedisError, World (db w) fs (log w ++ [c]))
    | fs => let '(r, d) := eff (db w) in (r, World d (tail fs) (log w ++ [c]))
    end.

(** The sorted set under [key]; a key that does not exist reads as the
    empty set. *)
Definition zset (d : gmap string (gmap Z Z)) (key : string) : gmap Z Z :=
  default ∅ (d !! key).

(** Redis never keeps an empty sorted set: the key goes with its last
    member. *)
Definition store (key : string) (zs : gmap Z Z)
    (d : gmap string (gmap Z Z)) : gmap string (gmap Z Z) :=
  if decide (zs = ∅) then delete key d else <[key := zs]> d.

Definition ping : M bool := execute PING (λ d, (Ok true, d)).

(** [zincrby(name, amount, value)]: adds [amount] to the score of [value],
    which starts from 0 when absent; returns the new score. *)
Definition zincrby (name : string) (amount : Z) (value : Z) : M Z :=
  execute (ZINCRBY name amount value) (λ d,
    let zs := zset d name in
    let s := default 0 (zs !! value) + amount in
    (Ok s, <[name := <[value := s]> zs]> d)).

(** Order of a descending range read: higher score first, equal scores in
    descending byte order of the members. *)
Definition desc (x y : Z * Z) : Prop :=
  x.2 > y.2 ∨ (x.2 = y.2 ∧ String.le (pretty y.1) (pretty x.1)).

Global Instance desc_dec : RelDecision desc.
Proof. intros x y. unfold desc. apply _. Defined.

Definition zrange_of (zs : gmap Z Z) : list Z :=
  fst <$> merge_sort desc (map_to_list zs).

(** [zrange(name, 0, -1, desc=True)]: all members, best first. *)
Definition zrange_desc (name : string) : M (list Z) :=
  execute (ZRANGE_DESC name) (λ d, (Ok (zrange_of (zset d name)), d)).

Definition zunion (d : gmap string (gmap Z Z)) (keys : list string) : gmap Z Z :=
  foldl (λ acc k, union_with (λ a b, Some (a + b)) acc (zset d k)) ∅ keys.

(** [zunionstore(dest, keys)]: [dest] becomes the member-wise sum of the
    sets under [keys] (a key listed twice counts twice); the server refuses
    an empty key list. Returns the size of the result. *)
Definition zunionstore (dest : string) (keys : list string) : M Z :=
  execute (ZUNIONSTORE dest keys) (λ d,
    match keys with
    | [] => (Raise ResponseError, d)
    | _ => let u := zunion d keys in (Ok (Z.of_nat (size u)), store dest u d)
    end).

(** [zrem(name, *values)]: removes the members; the server refuses a call
    without members. Returns how many were there. *)
Definition zrem (name : string) (values : list Z) : M Z :=
  execute (ZREM name values) (λ d,
    match values with
    | [] => (Raise ResponseError, d)
    | _ =>
      let zs := zset d name in
      let zs' := foldr delete zs values in
      (Ok (Z.of_nat (size zs) - Z.of_nat (size zs')), store name zs' d)
    end).

(** [delete(name)] *)
Definition delete (name : string) : M Z :=
  execute (DEL name) (λ d,
    (Ok (if d !! name is Some _ then 1 else 0), base.delete name d)).

End Redis.

(** ** The catalog *)

(** A row of the [Product] table; [id] is its primary key. The engine reads
    nothing but [id]; of the other columns the ones kept here stand for all
    of them. *)
Record Product := {
  id : Z;
  name : string;
  slug : string;
  available : bool
}.

Global Instance Product_eq_dec : EqDecision Product.
Proof. solve_decision. Defined.

Module Objects.
(** [Product.objects.filter(id__in=ids)]: the rows whose key is listed, in
    the order of the query. *)
Definition filter_id_in (catalog : list Product) (ids : list Z) : list Product :=
  filter (λ p, id p ∈ ids) catalog.

(** [Product.objects.values_list("id", flat=True)] *)
Definition values_list_id (catalog : list Product) : list Z := id <$> catalog.
End Objects.

(** ** Python lists *)

(** [l[:n]] *)
Definition slice_to {A} (l : list A) (n : Z) : list A :=
  if decide (0 ≤ n) then take (Z.to_nat n) l
  else take (length l - Z.to_nat (- n)) l.

(** [l.index(x)]: position of the first occurrence, [None] for the
    [ValueError] of an absent element. *)
Fixpoint index (x : Z) (l : list Z) : option nat :=
  match l with
  | [] => None
  | y :: l' => if decide (y = x) then Some 0%nat else S <$> index x l'
  end.

(** Insertion into a list sorted by key, after the elements with a smaller
    key and before the others. *)
Fixpoint insert_by_key {A} (x : nat * A) (l : list (nat * A)) : list (nat * A) :=
  match l with
  | [] => [x]
  | y :: l' => if decide (x.1 ≤ y.1)%nat then x :: l else y :: insert_by_key x l'
  end.

(** A stable sort of key-decorated elements: elements with equal keys keep
    their order, as [list.sort] guarantees. *)
Definition stable_sort {A} (l : list (nat * A)) : list (nat * A) :=
  foldr insert_by_key [] l.

(** [l.sort(key=f)]: every key is computed first, and an exception in [f]
    leaves the sort; the list is then sorted on the keys, stably. *)
Definition sort_by_key {A} (f : A → option nat) (l : list A) : M (list A) :=
  match mapM (λ x, k ← f x; Some (k, x)) l with
  | None => raise ValueError
  | Some kl => mret (snd <$> stable_sort kl)
  end.

(** ** The recommender *)

(** The connection settings read from [django.conf.settings]. *)
Record Settings := {
  REDIS_HOST : string;
  REDIS_PORT : Z;
  REDIS_DB : Z
}.

(** [self.redis]: a client for the configured server, or [None]. *)
Record Recommender := { redis : option Settings }.

Module Recommender.

(** [__init__], lines 25-33: the connection is tried once with a ping. *)
Definition __init__ (settings : Settings) : M Recommender :=
  try_except_RedisError
    (Redis.ping;; mret {| redis := Some settings |})
    (mret {| redis := None |}).

(** [get_product_key], line 45 *)
Definition get_product_key (product_id : Z) : string :=
  "product:" +:+ pretty product_id +:+ ":purchased_with".

(** [products_bought], lines 60-66 *)
Definition products_bought (self : Recommender) (products : list Product) : M () :=
  if redis self is Some _ then
    let product_ids := id <$> products in
    for_ product_ids (λ product_id,
      for_ product_ids (λ with_id,
        if decide (product_id ≠ with_id)
        then Redis.zincrby (get_product_key product_id) 1 with_id;; mret ()
        else mret ()))
  else mret ().

(** Line 98: the decimal texts of the ids, joined without separator. *)
Definition flat_ids (product_ids : list Z) : string :=
  foldr (λ product_id s, pretty product_id +:+ s) "" product_ids.

(** Line 99 *)
Definition tmp_key (product_ids : list Z) : string :=
  "tmp_" +:+ flat_ids product_ids.

(** Lines 92-104 of [suggest_products_for]: the ranked ids read from the
    store. *)
Definition suggestions (products : list Product) (max_results : Z) : M (list Z) :=
  let product_ids := id <$> products in
  match product_ids with
  | [product_id] =>
    (* len(products) == 1, and product_id is product_ids[0] *)
    l ← Redis.zrange_desc (get_product_key product_id);
    mret (slice_to l max_results)
  | _ =>
    let tmp_key := tmp_key product_ids in
    let keys := get_product_key <$> product_ids in
    Redis.zunionstore tmp_key keys;;
    Redis.zrem tmp_key product_ids;;
    l ← Redis.zrange_desc tmp_key;
    Redis.delete tmp_key;;
    mret (slice_to l max_results)
  end.

(** Lines 106-109 of [suggest_products_for]: the rows of the ranked ids,
    put back in rank order. The members already are the integers that line
    106 reads from their text. *)
Definition resolve (catalog : list Product) (suggested_ids : list Z) : M (list Product) :=
  let products := Objects.filter_id_in catalog suggested_ids in
  sort_by_key (λ x, index (id x) suggested_ids) products.

(** [suggest_products_for], lines 89-109 *)
Definition suggest_products_for (self : Recommender) (catalog : list Product)
    (products : list Product) (max_results : Z) : M (list Product) :=
  if redis self is Some _ then
    suggested_ids ← suggestions products max_results;
    resolve catalog suggested_ids
  else mret [].

(** [clear_purchases], lines 120-123 *)
Definition clear_purchases (self : Recommender) (catalog : list Product) : M () :=
  if redis self is Some _ then
    for_ (Objects.values_list_id catalog) (λ product_id,
      Redis.delete (get_product_key product_id);; mret ())
  else mret ().

End Recommender.

(** ** What the store holds, and what the operations are meant to do to it *)

(** The co-purchase score of [b] in the set kept for [a]; 0 when absent. *)
Definition score (d : gmap string (gmap Z Z)) (a b : Z) : Z :=
  default 0 (Redis.zset d (Recommender.get_product_key a) !! b).

(** The aggregate score of [m] for a query: its scores in the sets of the
    queried ids, added up. *)
Definition aggregate (d : gmap string (gmap Z Z)) (ids : list Z) (m : Z) : Z :=
  foldr (λ q acc, score d q m + acc) 0 ids.

(** The ordered pairs of different ids of a basket, in the order in which
    the two loops of [products_bought] meet them. *)
Definition pairs (ids : list Z) : list (Z * Z) :=
  a ← ids; (λ b, (a, b)) <$> filter (λ b, a ≠ b) ids.

Definition incr_call (p : Z * Z) : call :=
  ZINCRBY (Recommender.get_product_key p.1) 1 p.2.

(** One round of the inner loop of [products_bought] that passes the test
    of line 65. *)
Definition incr_body (p : Z * Z) : M () :=
  Redis.zincrby (Recommender.get_product_key p.1) 1 p.2;; mret ().

(** The effect of one successful increment on the keyspace. *)
Definition incr (d : gmap string (gmap Z Z)) (p : Z * Z) : gmap string (gmap Z Z) :=
  let key := Recommender.get_product_key p.1 in
  <[key := <[p.2 := default 0 (Redis.zset d key !! p.2) + 1]> (Redis.zset d key)]> d.

(** The sorted set a query reads its ranking from: the set of the product
    for a single product, the union without the queried ids otherwise. *)
Definition ranking_set (d : gmap string (gmap Z Z)) (ids : list Z) : gmap Z Z :=
  match ids with
  | [p] => Redis.zset d (Recommender.get_product_key p)
  | _ => foldr delete (Redis.zunion d (Recommender.get_product_key <$> ids)) ids
  end.

(** The store calls of a query, in order. *)
Definition suggest_calls (ids : list Z) : list call :=
  match ids with
  | [p] => [ZRANGE_DESC (Recommender.get_product_key p)]
  | _ =>
    let t := Recommender.tmp_key ids in
    [ZUNIONSTORE t (Recommender.get_product_key <$> ids); ZREM t ids;
     ZRANGE_DESC t; DEL t]
  end.

(** The keyspace after the first [k] store calls of a multi-product query
    have succeeded. *)
Definition after_calls (d : gmap string (gmap Z Z)) (ids : list Z) (k : nat)
    : gmap string (gmap Z Z) :=
  let t := Recommender.tmp_key ids in
  let u := Redis.zunion d (Recommender.get_product_key <$> ids) in
  match k with
  | O => d
  | 1%nat => Redis.store t u d
  | 2%nat | 3%nat => Redis.store t (foldr delete u ids) d
  | _ => delete t d
  end.

(** The keyspace after a query whose store calls have all succeeded. *)
Definition after_suggest (d : gmap string (gmap Z Z)) (ids : list Z)
    : gmap string (gmap Z Z) :=
  match ids with
  | [_] => d
  | _ => delete (Recommender.tmp_key ids) d
  end.

(** The rank sequence restricted to the ids the catalog resolves: every id
    replaced by its row, or by nothing. *)
Definition resolved (catalog : list Product) (ids : list Z) : list Product :=
  i ← ids; filter (λ p, id p = i) catalog.

(** The position of an id in a rank sequence (0 for an id that is not in
    it, which [resolve] never asks about). *)
Definition rank_of (ids : list Z) (i : Z) : nat := default 0%nat (index i ids).

(** No pending call raises. *)
Definition no_faults (w : world) : Prop := Forall (λ b, b = false) (faults w).

(** The next [k] calls succeed and the one after raises. *)
Definition fails_at (k : nat) (w : world) : Prop :=
  ∃ fs, faults w = replicate k false ++ true :: fs.

(** No sorted set lists the product it is kept for. *)
Definition no_self_loop (d : gmap string (gmap Z Z)) : Prop :=
  ∀ p, Redis.zset d (Recommender.get_product_key p) !! p = None.

(** The worlds reached from an empty store by recording purchases, under any
    schedule of failures. *)
Inductive reachable : world → Prop :=
| reachable_empty fs : reachable (World ∅ fs [])
| reachable_bought self products w :
    reachable w → reachable (Recommender.products_bought self products w).2.

(** ** Sample data *)

Definition sample_settings : Settings :=
  {| REDIS_HOST := "localhost"; REDIS_PORT := 6379; REDIS_DB := 1 |}.

Definition connected : Recommender := {| redis := Some sample_settings |}.

Definition sample_product (i : Z) (n : string) : Product :=
  {| id := i; name := n; slug := n; available := true |}.

Definition tea := sample_product 1 "tea".
Definition mug := sample_product 2 "mug".
Definition pot := sample_product 3 "pot".

(** The catalog in the order of its default ordering, by name. *)
Definition sample_catalog : list Product := [mug; pot; tea].

Definition empty_world : world := World ∅ [] [].

(** The store after one purchase of the three products together. *)
Definition sample_world : world :=
  (Recommender.products_bought connected [tea; mug; pot] empty_world).2.

(** A schedule in which the second store call raises. *)
Definition second_call_fails (d : gmap string (gmap Z Z)) : world :=
  World d [false; true] [].

(** ** The views that ask for recommendations *)

Module ShopViews.

(** [product_detail], lines 65-70 of [shop/views.py]: the recommendations
    shown with a product. The engine is built and queried inside one [try];
    on a [RedisError] the view falls back to the empty list. *)
Definition product_detail_recommended (settings : Settings)
    (catalog : list Product) (product : Product) : M (list Product) :=
  try_except_RedisError
    (r ← Recommender.__init__ settings;
     Recommender.suggest_products_for r catalog [product] 2)
    (mret []).

End ShopViews.

Module CartViews.

(** [cart_detail], lines 89-101 of [cart/views.py]: the recommendations
    shown with the cart. [cart_products] is the list that the comprehension
    of lines 90 and 94 yields (the cart's iteration goes through [Decimal]
    and is not part of this development). The engine is built twice, the
    second time inside a [try] whose handler empties the list; the query
    itself is outside the [try]. *)
Definition cart_detail_recommended (settings : Settings)
    (catalog : list Product) (cart_products : list Product) : M (list Product) :=
  r ← Recommender.__init__ settings;
  rc ← try_except_RedisError
         (r ← Recommender.__init__ settings; mret (r, cart_products))
         (mret (r, []));
  if rc.2 is [] then mret []
  else Recommender.suggest_products_for rc.1 catalog rc.2 4.

End CartViews.

(** ** The cart kept in the session ([cart/cart.py]) *)

Module Cart.

(** An entry of the cart as [add] creates it: the quantity and the text of
    the price. *)
Record Item := { quantity : Z; price : string }.

(** The request's session as the cart uses it, together with the dict
    objects it refers to. A dict object is named by its position in [heap];
    the keys of a cart dict are the texts of product ids and are named by the
    ids. [session_cart] is the entry [session[settings.CART_SESSION_ID]],
    [None] when the session has no such key; [session_coupon_id] is
    [session.get("coupon_id")]; [modified] is [session.modified]. *)
Record Request := {
  heap : list (gmap Z Item);
  session_cart : option nat;
  session_coupon_id : option Z;
  modified : bool
}.

(** A [Cart] object: [self.cart], which refers to a dict, and
    [self.coupon_id]; [self.session] is the session of the request. *)
Record t := { cart : nat; coupon_id : option Z }.

(** The dict behind a reference. *)
Definition deref (req : Request) (l : nat) : gmap Z Item :=
  default ∅ (heap req !! l).

(** [self.cart = ...] written through the reference. *)
Definition set_dict (l : nat) (d : gmap Z Item) (req : Request) : Request :=
  {| heap := <[l := d]> (heap req); session_cart := session_cart req;
     session_coupon_id := session_coupon_id req; modified := modified req |}.

(** [save], line 101 *)
Definition save (req : Request) : Request :=
  {| heap := heap req; session_cart := session_cart req;
     session_coupon_id := session_coupon_id req; modified := true |}.

(** [__init__], lines 29-36. A session without a cart, or with an empty one,
    gets a new empty dict; storing it marks the session as modified, as every
    assignment to a session key does. *)
Definition __init__ (req : Request) : t * Request :=
  match session_cart req with
  | Some l =>
    if decide (deref req l = ∅) then
      ({| cart := length (heap req); coupon_id := session_coupon_id req |},
       {| heap := heap req ++ [∅]; session_cart := Some (length (heap req));
          session_coupon_id := session_coupon_id req; modified := true |})
    else ({| cart := l; coupon_id := session_coupon_id req |}, req)
  | None =>
    ({| cart := length (heap req); coupon_id := session_coupon_id req |},
     {| heap := heap req ++ [∅]; session_cart := Some (length (heap req));
        session_coupon_id := session_coupon_id req; modified := true |})
  end.

(** [__len__], line 68 *)
Definition __len__ (self : t) (req : Request) : Z :=
  map_fold (λ _ item acc, quantity item + acc) 0 (deref req (cart self)).

(** [add], lines 86-93; [str_price product] stands for
    [str(product.price)], the price column not being part of [Product]
    above. *)
Definition add (str_price : Product → string) (self : t) (product : Product)
    (quantity : Z) (override_quantity : bool) (req : Request) : Request :=
  let product_id := id product in
  let d := deref req (cart self) in
  let d :=
    if d !! product_id is Some _ then d
    else <[product_id := Build_Item 0 (str_price product)]> d in
  let d :=
    alter (λ item,
      let 'Build_Item old text := item in
      if override_quantity then Build_Item quantity text
      else Build_Item (old + quantity) text) product_id d in
  save (set_dict (cart self) d req).

(** [remove], lines 112-115 *)
Definition remove (self : t) (product : Product) (req : Request) : Request :=
  let product_id := id product in
  let d := deref req (cart self) in
  if d !! product_id is Some _
  then save (set_dict (cart self) (delete product_id d) req)
  else req.

(** [clear], lines 123-124; [None] for the [KeyError] of deleting a session
    key that is not there. Deleting a session key marks the session as
    modified. *)
Definition clear (self : t) (req : Request) : option Request :=
  match session_cart req with
  | Some _ =>
    Some (save {| heap := heap req; session_cart := None;
                  session_coupon_id := session_coupon_id req; modified := true |})
  | None => None
  end.

(** The cart that the session holds: what a later request will find. *)
Definition session_items (req : Request) : gmap Z Item :=
  match session_cart req with
  | Some l => deref req l
  | None => ∅
  end.

End Cart.

(** ** Further notions for the properties of the engine *)

(** The worlds reached from an empty store by recording purchases whose
    store calls all succeed. *)
Inductive recorded : world → Prop :=
| recorded_empty : recorded (World ∅ [] [])
| recorded_bought self products w :
    recorded w → no_faults w →
    recorded (Recommender.products_bought self products w).2.

(** How many of a product a cart dict holds; 0 when the product is not in
    it. *)
Definition cart_quantity (d : gmap Z Cart.Item) (i : Z) : Z :=
  from_option Cart.quantity 0 (d !! i).

(** The entry of a product after [add]: the quantity set or raised, the
    price text as it was, or the product's for a new entry. *)
Definition added_item (str_price : Product → string) (d : gmap Z Cart.Item)
    (product : Product) (quantity : Z) (override_quantity : bool) : Cart.Item :=
  match d !! id product with
  | Some item =>
    Cart.Build_Item
      (if override_quantity then quantity else Cart.quantity item + quantity)
      (Cart.price item)
  | None => Cart.Build_Item quantity (str_price product)
  end.

(** How often an id occurs in a basket. *)
Definition occurrences (x : Z) (ids : list Z) : nat :=
  length (filter (λ y, x = y) ids).

(** The keyspace after the sets of the listed products are deleted. *)
Definition cleared (d : gmap string (gmap Z Z)) (ids : list Z)
    : gmap string (gmap Z Z) :=
  foldl (λ d i, delete (Recommender.get_product_key i) d) d ids.

(** The product [m] was bought together with one of the queried products. *)
Definition bought_with (d : gmap string (gmap Z Z)) (ids : list Z) (m : Z) : Prop :=
  ∃ q, q ∈ ids ∧ is_Some (Redis.zset d (Recommender.get_product_key q) !! m).

(** ** The monad and the client *)

Lemma bind_Ok {A B} (m : M A) (k : A → M B) w a w' :
  m w = (Ok a, w') → (m ≫= k) w = k a w'.
Proof. unfold mbind, M_bind. by intros ->. Qed.

Lemma bind_Raise {A B} (m : M A) (k : A → M B) w e w' :
  m w = (Raise e, w') → (m ≫= k) w = (Raise e, w').
Proof. unfold mbind, M_bind. by intros ->. Qed.

Lemma no_faults_cases w :
  no_faults w → faults w = [] ∨ ∃ fs, faults w = false :: fs ∧ Forall (λ b, b = false) fs.
Proof.
  unfold no_faults. destruct (faults w) as [|b fs]; [by left|].
  intros [-> ?]%Forall_cons. right. eauto.
Qed.

Lemma execute_fault {A} c (eff : _ → result A * _) w fs :
  faults w = true :: fs →
  Redis.execute c eff w = (Raise RedisError, World (db w) fs (log w ++ [c])).
Proof. unfold Redis.execute. by intros ->. Qed.

Lemma no_faults_tail d fs lg :
  Forall (λ b, b = false) fs → no_faults (World d (tail fs) lg).
Proof. unfold no_faults. simpl. destruct fs; [done|]. by intros [_ ?]%Forall_cons. Qed.

(** ** Key names *)

Lemma string_app_length (s t : string) :
  String.length (s +:+ t) = (String.length s + String.length t)%nat.
Proof. induction s; simpl; [done|]. by f_equal. Qed.

Lemma string_app_inj_r (s1 s2 t : string) : s1 +:+ t = s2 +:+ t → s1 = s2.
Proof.
  revert s2. induction s1 as [|a s1 IH]; intros [|b s2] E.
  - done.
  - apply (f_equal String.length) in E.
    rewrite !string_app_length in E. simpl in E. lia.
  - apply (f_equal String.length) in E.
    rewrite !string_app_length in E. simpl in E. lia.
  - change (String a (s1 +:+ t) = String b (s2 +:+ t)) in E.
    injection E as -> E. f_equal. by apply IH.
Qed.

Global Instance get_product_key_inj : Inj (=) (=) Recommender.get_product_key.
Proof.
  intros a b E. unfold Recommender.get_product_key in E.
  apply (inj (String.app "product:")) in E.
  apply string_app_inj_r in E. by apply (inj pretty) in E.
Qed.

Lemma zset_store_eq key zs d : Redis.zset (Redis.store key zs d) key = zs.
Proof.
  unfold Redis.zset, Redis.store. case_decide as E.
  - by rewrite lookup_delete_eq, E.
  - by rewrite lookup_insert_eq.
Qed.

Lemma delete_store key zs d : delete key (Redis.store key zs d) = delete key d.
Proof.
  unfold Redis.store. case_decide.
  - by rewrite delete_delete_eq.
  - by rewrite delete_insert_eq.
Qed.

Lemma store_store key zs zs' d :
  Redis.store key zs (Redis.store key zs' d) = Redis.store key zs d.
Proof.
  unfold Redis.store. repeat case_decide;
    by rewrite ?delete_delete_eq, ?delete_insert_eq, ?insert_delete_eq, ?insert_insert_eq.
Qed.

Lemma execute_ok {A} c (eff : _ → result A * _) w :
  head (faults w) ≠ Some true →
  Redis.execute c eff w =
    ((eff (db w)).1, World (eff (db w)).2 (tail (faults w)) (log w ++ [c])).
Proof.
  unfold Redis.execute. destruct (faults w) as [|[] fs]; simpl; [|done|];
    intros _; by destruct (eff (db w)).
Qed.

Lemma no_faults_head w : no_faults w → head (faults w) ≠ Some true.
Proof. by intros [->|(fs & -> & _)]%no_faults_cases. Qed.

Lemma no_faults_drop d n fs lg :
  Forall (λ b, b = false) fs → no_faults (World d (drop n fs) lg).
Proof. unfold no_faults. simpl. apply Forall_drop. Qed.

(** ** Loops *)

Lemma for_app {A} (l1 l2 : list A) body w :
  for_ (l1 ++ l2) body w = (for_ l1 body;; for_ l2 body) w.
Proof.
  revert w. induction l1 as [|x l1 IH]; intros w; simpl; [done|].
  unfold mbind, M_bind in *. destruct (body x w) as [[[]|e] w1]; [|done].
  apply IH.
Qed.

Lemma for_fmap {A B} (f : A → B) (l : list A) body w :
  for_ (f <$> l) body w = for_ l (body ∘ f) w.
Proof.
  revert w. induction l as [|x l IH]; intros w; simpl; [done|].
  unfold mbind, M_bind. destruct (body (f x) w) as [[[]|e] w1]; [|done].
  apply IH.
Qed.

Lemma for_guard {A} (P : A → Prop) `{!∀ x, Decision (P x)} (l : list A) body w :
  for_ l (λ x, if decide (P x) then body x else mret ()) w = for_ (filter P l) body w.
Proof.
  revert w. induction l as [|x l IH]; intros w; simpl; [done|].
  rewrite filter_cons. destruct (decide (P x)); simpl.
  - unfold mbind, M_bind. destruct (body x w) as [[[]|e] w1]; [|done]. apply IH.
  - apply IH.
Qed.

Lemma for_ext {A} (l : list A) body1 body2 w :
  (∀ x w, x ∈ l → body1 x w = body2 x w) → for_ l body1 w = for_ l body2 w.
Proof.
  revert w. induction l as [|x l IH]; intros w H; simpl; [done|].
  unfold mbind, M_bind. rewrite (H x w) by left.
  destruct (body2 x w) as [[[]|e] w1]; [|done].
  apply IH. intros. apply H. by right.
Qed.

Lemma for_nested {A B} (l : list A) (g : A → list B) (h : A → B → M ()) w :
  for_ l (λ a, for_ (g a) (h a)) w
  = for_ (a ← l; (λ b, (a, b)) <$> g a) (λ p, h p.1 p.2) w.
Proof.
  revert w. induction l as [|a l IH]; intros w; simpl; [done|].
  rewrite for_app. unfold mbind, M_bind. rewrite for_fmap.
  change (for_ (g a) _ w) with (for_ (g a) (h a) w).
  destruct (for_ (g a) (h a) w) as [[[]|e] w1]; [|done].
  apply IH.
Qed.

(** A property of the world kept by every round of a loop is kept by the
    loop, however it ends. *)
Lemma for_invariant {A} (P : world → Prop) (l : list A) body w :
  (∀ x w, x ∈ l → P w → P (body x w).2) → P w → P (for_ l body w).2.
Proof.
  revert w. induction l as [|x l IH]; intros w Hbody Hw; simpl; [done|].
  unfold mbind, M_bind. pose proof (Hbody x w (list_elem_of_here _ _) Hw) as H1.
  destruct (body x w) as [[[]|e] w1]; [|done].
  apply IH; [|done]. intros. apply Hbody; [by right|done].
Qed.

(** ** Recording a purchase *)

Lemma products_bought_pairs self c products w :
  redis self = Some c →
  Recommender.products_bought self products w
  = for_ (pairs (id <$> products)) incr_body w.
Proof.
  intros Hc. unfold Recommender.products_bought. rewrite Hc.
  unfold pairs. rewrite <- (for_nested _ (λ a, filter (λ b, a ≠ b) _)
    (λ a b, incr_body (a, b))).
  apply for_ext. intros a w' _. by rewrite <- for_guard.
Qed.

Lemma incr_body_ok p w :
  head (faults w) ≠ Some true →
  incr_body p w
  = (Ok (), World (incr (db w) p) (tail (faults w)) (log w ++ [incr_call p])).
Proof.
  intros H. unfold incr_body, Redis.zincrby, mbind, M_bind.
  by rewrite execute_ok.
Qed.

Lemma incr_body_fault p w fs :
  faults w = true :: fs →
  incr_body p w = (Raise RedisError, World (db w) fs (log w ++ [incr_call p])).
Proof.
  intros H. unfold incr_body, Redis.zincrby, mbind, M_bind.
  by erewrite execute_fault.
Qed.

Lemma incr_loop_ok ps w :
  no_faults w →
  for_ ps incr_body w
  = (Ok (), World (foldl incr (db w) ps) (drop (length ps) (faults w))
                  (log w ++ (incr_call <$> ps))).
Proof.
  revert w. induction ps as [|p ps IH]; intros w Hw; simpl.
  - rewrite drop_0, app_nil_r. by destruct w.
  - unfold mbind, M_bind. rewrite incr_body_ok by by apply no_faults_head.
    rewrite IH by by apply no_faults_tail.
    simpl. rewrite <- app_assoc. simpl.
    destruct (faults w); simpl; by rewrite ?drop_nil.
Qed.

Lemma incr_loop_fault ps w k fs :
  faults w = replicate k false ++ true :: fs → (k < length ps)%nat →
  for_ ps incr_body w
  = (Raise RedisError,
     World (foldl incr (db w) (take k ps)) fs
           (log w ++ (incr_call <$> take (S k) ps))).
Proof.
  revert w k. induction ps as [|p ps IH]; intros w k Hf Hk; simpl in Hk; [lia|].
  simpl for_. unfold mbind, M_bind. destruct k as [|k]; simpl in Hf.
  - erewrite incr_body_fault by done. by rewrite take_0.
  - rewrite incr_body_ok by by rewrite Hf.
    rewrite (IH _ k); [|simpl; by rewrite Hf|lia].
    simpl. by rewrite <- app_assoc.
Qed.

(** ** The ordered pairs of a basket *)

Lemma elem_of_pairs ids a b : (a, b) ∈ pairs ids ↔ a ∈ ids ∧ b ∈ ids ∧ a ≠ b.
Proof.
  unfold pairs. rewrite list_elem_of_bind. split.
  - intros (x & (y & [= -> ->] & [? ?]%list_elem_of_filter)%list_elem_of_fmap & ?).
    done.
  - intros (? & ? & ?). exists a. split; [|done].
    apply list_elem_of_fmap. exists b. split; [done|].
    by apply list_elem_of_filter.
Qed.

Lemma NoDup_pairs ids : NoDup ids → NoDup (pairs ids).
Proof.
  intros Hnd. unfold pairs. apply NoDup_bind; [| |done].
  - intros x1 x2 [a b] _ _ (? & [= -> _] & _)%list_elem_of_fmap
      (? & [= -> _] & _)%list_elem_of_fmap. done.
  - intros x _. apply NoDup_fmap_2; [by intros ?? [=]|].
    by apply NoDup_filter.
Qed.

Lemma length_filter_ne (a : Z) ids :
  NoDup ids → a ∈ ids → length (filter (λ b, a ≠ b) ids) = (length ids - 1)%nat.
Proof.
  induction 1 as [|x l Hx Hnd IH]; [by intros ?%elem_of_nil|].
  intros [->|Ha]%elem_of_cons; rewrite filter_cons.
  - destruct (decide (x ≠ x)); [done|]. simpl.
    rewrite Nat.sub_0_r. clear IH. induction l as [|y l IH]; [done|].
    apply not_elem_of_cons in Hx as [? ?]. apply NoDup_cons in Hnd as [? ?].
    rewrite filter_cons. destruct (decide (x ≠ y)); [|done].
    simpl. f_equal. by apply IH.
  - destruct (decide (a ≠ x)) as [_|E]; simpl.
    + rewrite IH by done. destruct l; [by apply elem_of_nil in Ha|simpl; lia].
    + destruct E. by intros ->.
Qed.

Lemma length_bind_const {A B} (f : A → list B) l c :
  (∀ x, x ∈ l → length (f x) = c) → length (l ≫= f) = (length l * c)%nat.
Proof.
  induction l as [|x l IH]; intros H; [done|].
  rewrite bind_cons, length_app, IH, H; [simpl; lia|left|].
  intros. apply H. by right.
Qed.

Lemma length_pairs ids :
  NoDup ids → length (pairs ids) = (length ids * (length ids - 1))%nat.
Proof.
  intros Hnd. unfold pairs. apply length_bind_const.
  intros a Ha. by rewrite length_fmap, length_filter_ne.
Qed.

(** ** Scores *)

Lemma score_incr d p a b :
  score (incr d p) a b = score d a b + (if decide (p = (a, b)) then 1 else 0).
Proof.
  destruct (decide (p = (a, b))) as [->|Hne]; unfold score, incr, Redis.zset.
  - simpl. rewrite lookup_insert_eq. simpl. by rewrite lookup_insert_eq.
  - destruct p as [x y]. simpl.
    destruct (decide (x = a)) as [->|Hx].
    + rewrite lookup_insert_eq. simpl.
      rewrite lookup_insert_ne by congruence. lia.
    + rewrite lookup_insert_ne by (by intros ?%(inj _)). lia.
Qed.

Lemma score_foldl_incr ps d a b :
  NoDup ps →
  score (foldl incr d ps) a b
  = score d a b + (if decide ((a, b) ∈ ps) then 1 else 0).
Proof.
  intros Hnd. revert d. induction Hnd as [|p ps Hp Hnd IH]; intros d; cbn [foldl].
  - rewrite decide_False by apply not_elem_of_nil. lia.
  - rewrite IH, score_incr.
    destruct (decide (p = (a, b))) as [->|Hne].
    + rewrite decide_False by done. rewrite decide_True by left. lia.
    + destruct (decide ((a, b) ∈ ps)).
      * rewrite decide_True by by right. lia.
      * rewrite decide_False; [lia|]. by intros [?|?]%elem_of_cons.
Qed.

Lemma no_self_loop_incr d p :
  p.1 ≠ p.2 → no_self_loop d → no_self_loop (incr d p).
Proof.
  intros Hne H q. specialize (H q). destruct p as [x y]. simpl in Hne.
  unfold incr, Redis.zset in *. simpl.
  destruct (decide (x = q)) as [->|Hx].
  - rewrite lookup_insert_eq. simpl. by rewrite lookup_insert_ne.
  - by rewrite lookup_insert_ne by (by intros ?%(inj _)).
Qed.

Lemma ZINCRBY_inj k a m k' a' m' :
  ZINCRBY k a m = ZINCRBY k' a' m' → k = k' ∧ a = a' ∧ m = m'.
Proof. intros E. split_and!; congruence. Qed.

Global Instance incr_call_inj : Inj (=) (=) incr_call.
Proof.
  intros [a b] [a' b'] (Hk & _ & Hm)%ZINCRBY_inj. simpl in Hk, Hm.
  apply (inj _) in Hk. by subst.
Qed.

(** C1: in a connected engine whose store calls all succeed, recording a
    basket of [n] distinct products issues [n * (n - 1)] increments of 1, one
    for each ordered pair of different products of the basket and no other
    (in particular none on a product's own entry); afterwards the score of
    each such pair is one higher, and every other score is as before. *)
Theorem products_bought_increments self c products w :
  redis self = Some c → no_faults w → NoDup (id <$> products) →
  let ids := id <$> products in
  let r := Recommender.products_bought self products w in
  ∃ issued,
    r.1 = Ok () ∧ log r.2 = log w ++ issued ∧
    length issued = (length products * (length products - 1))%nat ∧
    NoDup issued ∧
    (∀ k, k ∈ issued ↔
       ∃ a b, a ∈ ids ∧ b ∈ ids ∧ a ≠ b ∧
              k = ZINCRBY (Recommender.get_product_key a) 1 b) ∧
    (∀ p amount, ZINCRBY (Recommender.get_product_key p) amount p ∉ issued) ∧
    (∀ a b, a ∈ ids → b ∈ ids → a ≠ b →
       score (db r.2) a b = score (db w) a b + 1 ∧
       score (db r.2) b a = score (db w) b a + 1) ∧
    (∀ a b, ¬ (a ∈ ids ∧ b ∈ ids ∧ a ≠ b) →
       score (db r.2) a b = score (db w) a b).
Proof.
  intros Hc Hw Hnd ids r. subst r.
  erewrite products_bought_pairs by done. rewrite incr_loop_ok by done.
  fold ids. simpl. exists (incr_call <$> pairs ids).
  assert (Hin : ∀ k, k ∈ incr_call <$> pairs ids ↔
    ∃ a b, a ∈ ids ∧ b ∈ ids ∧ a ≠ b ∧
           k = ZINCRBY (Recommender.get_product_key a) 1 b).
  { intros k. rewrite list_elem_of_fmap. split.
    - intros ([a b] & -> & (? & ? & ?)%elem_of_pairs). by exists a, b.
    - intros (a & b & ? & ? & ? & ->). exists (a, b). split; [done|].
      by apply elem_of_pairs. }
  split_and!; try done.
  - rewrite length_fmap, length_pairs by done. unfold ids.
    by rewrite length_fmap.
  - apply NoDup_fmap_2; [apply _|by apply NoDup_pairs].
  - intros p amount (a & b & _ & _ & Hne & E)%Hin.
    apply ZINCRBY_inj in E as (->%(inj _) & _ & ->). done.
  - intros a b Ha Hb Hne.
    rewrite !score_foldl_incr by by apply NoDup_pairs.
    rewrite !decide_True; [done|apply elem_of_pairs..]; done.
  - intros a b Hn. rewrite score_foldl_incr by by apply NoDup_pairs.
    rewrite decide_False; [lia|]. by rewrite elem_of_pairs.
Qed.

(** ** Sorted lists *)

Lemma StronglySorted_fmap_strong {A B} (f : A → B) (R1 : relation A)
    (R2 : relation B) (l : list A) :
  (∀ x y, x ∈ l → y ∈ l → R1 x y → R2 (f x) (f y)) →
  StronglySorted R1 l → StronglySorted R2 (f <$> l).
Proof.
  intros H Hs. induction Hs as [|x l Hs IH Hx]; csimpl; constructor.
  - apply IH. intros. apply H; by try right.
  - rewrite Forall_fmap. apply Forall_forall. intros y Hy.
    rewrite Forall_forall in Hx. apply H; [left|by right|by apply Hx].
Qed.

Lemma StronglySorted_sublist {A} (R : relation A) (l k : list A) :
  l `sublist_of` k → StronglySorted R k → StronglySorted R l.
Proof.
  induction 1 as [|x l k Hsub IH|x l k Hsub IH]; intros Hs; [done|..].
  - apply StronglySorted_inv in Hs as [Hs Hx]. constructor; [by apply IH|].
    rewrite Forall_forall in Hx |- *. intros y Hy. apply Hx.
    by eapply elem_of_sublist.
  - apply StronglySorted_inv in Hs as [Hs _]. by apply IH.
Qed.

Lemma StronglySorted_all {A} (R : relation A) (l : list A) :
  (∀ x y, x ∈ l → y ∈ l → R x y) → StronglySorted R l.
Proof.
  induction l as [|x l IH]; intros H; constructor.
  - apply IH. intros. apply H; by right.
  - apply Forall_forall. intros y Hy. apply H; [left|by right].
Qed.

Lemma NoDup_fmap_inj_on {A B} (f : A → B) (l : list A) x y :
  NoDup (f <$> l) → x ∈ l → y ∈ l → f x = f y → x = y.
Proof.
  induction l as [|z l IH]; csimpl; [by intros _ ?%elem_of_nil|].
  intros [Hz Hnd]%NoDup_cons [->|Hx]%elem_of_cons [->|Hy]%elem_of_cons E.
  - done.
  - destruct Hz. rewrite E. apply list_elem_of_fmap. eauto.
  - destruct Hz. rewrite <- E. apply list_elem_of_fmap. eauto.
  - by apply IH.
Qed.

(** ** Range reads *)

Global Instance desc_total : Total Redis.desc.
Proof.
  intros [m1 s1] [m2 s2]. unfold Redis.desc. simpl.
  destruct (Z.lt_trichotomy s1 s2) as [?|[->|?]]; [right; left; lia| |left; left; lia].
  destruct (total String.le (pretty m1) (pretty m2)); [right|left]; by right.
Qed.

Global Instance desc_trans : Transitive Redis.desc.
Proof.
  intros [m1 s1] [m2 s2] [m3 s3]. unfold Redis.desc. simpl.
  intros [?|[-> H1]] [?|[-> H2]]; [left; lia..|].
  right. split; [done|]. by etrans.
Qed.

Lemma zrange_of_perm zs : Redis.zrange_of zs ≡ₚ (map_to_list zs).*1.
Proof. unfold Redis.zrange_of. by rewrite merge_sort_Permutation. Qed.

Lemma elem_of_zrange_of zs m : m ∈ Redis.zrange_of zs ↔ is_Some (zs !! m).
Proof.
  rewrite zrange_of_perm, list_elem_of_fmap. split.
  - intros ([m' s] & -> & H%elem_of_map_to_list). by exists s.
  - intros [s H]. exists (m, s). split; [done|]. by apply elem_of_map_to_list.
Qed.

Lemma NoDup_zrange_of zs : NoDup (Redis.zrange_of zs).
Proof. rewrite zrange_of_perm. apply NoDup_fst_map_to_list. Qed.

Lemma zrange_of_empty : Redis.zrange_of ∅ = [].
Proof. unfold Redis.zrange_of. by rewrite map_to_list_empty. Qed.

(** A range read is ordered by non-increasing score, whatever function
    accounts for the scores of the set. *)
Lemma zrange_of_sorted zs (f : Z → Z) :
  (∀ m s, zs !! m = Some s → s = f m) →
  StronglySorted (λ m1 m2, f m2 ≤ f m1) (Redis.zrange_of zs).
Proof.
  intros Hf. unfold Redis.zrange_of.
  apply (StronglySorted_fmap_strong _ Redis.desc).
  - intros [m1 s1] [m2 s2].
    rewrite !merge_sort_Permutation.
    intros ->%elem_of_map_to_list%Hf ->%elem_of_map_to_list%Hf.
    unfold Redis.desc. simpl. lia.
  - apply StronglySorted_merge_sort; apply _.
Qed.

(** ** Slices *)

Lemma slice_to_sublist {A} (l : list A) n : slice_to l n `sublist_of` l.
Proof. unfold slice_to. case_decide; apply sublist_take. Qed.

Lemma slice_to_length {A} (l : list A) n :
  0 ≤ n → Z.of_nat (length (slice_to l n)) ≤ n.
Proof.
  intros. unfold slice_to. rewrite decide_True by done. rewrite length_take. lia.
Qed.

Lemma slice_to_nil {A} n : slice_to (@nil A) n = [].
Proof. unfold slice_to. case_decide; apply take_nil. Qed.

(** ** Positions and the stable sort *)

Lemma index_is_Some i ids : i ∈ ids → is_Some (index i ids).
Proof.
  induction ids as [|y ids IH]; [by intros ?%elem_of_nil|].
  intros Hi. simpl. case_decide; [by eexists|].
  apply elem_of_cons in Hi as [->|Hi]; [done|].
  destruct (IH Hi) as [n ->]. by eexists.
Qed.

Lemma index_lookup i ids n : index i ids = Some n → ids !! n = Some i.
Proof.
  revert n. induction ids as [|y ids IH]; intros n; simpl; [done|].
  case_decide as E; [by intros [= <-]; subst|].
  destruct (index i ids) as [k|]; simpl; [|done].
  intros [= <-]. simpl. by apply IH.
Qed.

Lemma index_app_r i pre ids :
  i ∉ pre → index i (pre ++ ids) = (λ n, length pre + n)%nat <$> index i ids.
Proof.
  induction pre as [|y pre IH]; intros Hi; simpl.
  - by destruct (index i ids).
  - apply not_elem_of_cons in Hi as [? ?].
    rewrite decide_False by done. rewrite IH by done.
    by destruct (index i ids).
Qed.

Lemma rank_of_inj ids i j :
  i ∈ ids → j ∈ ids → rank_of ids i = rank_of ids j → i = j.
Proof.
  intros [n Hn]%index_is_Some [k Hk]%index_is_Some. unfold rank_of.
  rewrite Hn, Hk. simpl. intros ->.
  apply index_lookup in Hn, Hk. congruence.
Qed.

Lemma insert_by_key_perm {A} (x : nat * A) l : insert_by_key x l ≡ₚ x :: l.
Proof.
  induction l as [|y l IH]; simpl; [done|]. case_decide; [done|].
  by rewrite IH, Permutation_swap.
Qed.

Lemma stable_sort_perm {A} (l : list (nat * A)) : stable_sort l ≡ₚ l.
Proof.
  induction l as [|x l IH]; simpl; [done|].
  by rewrite insert_by_key_perm, IH.
Qed.

Lemma insert_by_key_sorted {A} (x : nat * A) l :
  StronglySorted (λ a b, a.1 ≤ b.1)%nat l →
  StronglySorted (λ a b, a.1 ≤ b.1)%nat (insert_by_key x l).
Proof.
  induction 1 as [|y l Hs IH Hy]; simpl.
  - by repeat constructor.
  - case_decide as Hxy.
    + constructor; [by constructor|]. constructor; [done|].
      eapply Forall_impl; [exact Hy|]. simpl. lia.
    + constructor; [done|]. rewrite insert_by_key_perm.
      constructor; [lia|done].
Qed.

Lemma stable_sort_sorted {A} (l : list (nat * A)) :
  StronglySorted (λ a b, a.1 ≤ b.1)%nat (stable_sort l).
Proof.
  induction l as [|x l IH]; simpl; [constructor|].
  by apply insert_by_key_sorted.
Qed.

(** ** Catalog resolution *)

Lemma resolve_keys (ids : list Z) (l : list Product) :
  Forall (λ x, id x ∈ ids) l →
  mapM (λ x, k ← index (id x) ids; Some (k, x)) l
  = Some ((λ x, (rank_of ids (id x), x)) <$> l).
Proof.
  intros H. apply mapM_Some. induction H as [|x l Hx H IH]; csimpl; [done|].
  constructor; [|done]. unfold rank_of.
  destruct (index_is_Some _ _ Hx) as [n ->]. done.
Qed.

(** The rows come back from [resolve] without an exception, as a
    rearrangement of the query's answer ordered by rank. *)
Lemma resolve_spec catalog ids w :
  ∃ res,
    Recommender.resolve catalog ids w = (Ok res, w) ∧
    res ≡ₚ Objects.filter_id_in catalog ids ∧
    StronglySorted (λ x y, rank_of ids (id x) ≤ rank_of ids (id y))%nat res.
Proof.
  unfold Recommender.resolve, sort_by_key.
  rewrite resolve_keys.
  2:{ apply Forall_forall. unfold Objects.filter_id_in.
      by intros x [? _]%list_elem_of_filter. }
  eexists. split; [done|]. split.
  - rewrite stable_sort_perm, <- list_fmap_compose. by rewrite list_fmap_id.
  - apply (StronglySorted_fmap_strong _ (λ a b, a.1 ≤ b.1)%nat);
      [|apply stable_sort_sorted].
    intros [k x] [k' y]. rewrite !stable_sort_perm.
    intros (? & [= -> ->] & _)%list_elem_of_fmap (? & [= -> ->] & _)%list_elem_of_fmap.
    done.
Qed.

Lemma elem_of_resolved catalog ids p :
  p ∈ resolved catalog ids ↔ p ∈ catalog ∧ id p ∈ ids.
Proof.
  unfold resolved. rewrite list_elem_of_bind. split.
  - by intros (i & [-> ?]%list_elem_of_filter & ?).
  - intros [? ?]. exists (id p). split; [|done]. by apply list_elem_of_filter.
Qed.

Lemma NoDup_resolved catalog ids :
  NoDup (id <$> catalog) → NoDup ids → NoDup (resolved catalog ids).
Proof.
  intros Hc Hi. apply NoDup_bind; [| |done].
  - by intros i j y _ _ [<- _]%list_elem_of_filter [<- _]%list_elem_of_filter.
  - intros i _. apply NoDup_filter. by eapply NoDup_fmap_1.
Qed.

Lemma resolved_sorted catalog pre ids :
  NoDup (pre ++ ids) →
  StronglySorted
    (λ x y, rank_of (pre ++ ids) (id x) ≤ rank_of (pre ++ ids) (id y))%nat
    (resolved catalog ids).
Proof.
  revert pre. induction ids as [|a ids IH]; intros pre Hnd; [constructor|].
  unfold resolved. rewrite bind_cons. apply StronglySorted_app. split_and!.
  - intros x y [-> _]%list_elem_of_filter
      (i & [-> _]%list_elem_of_filter & Hi)%list_elem_of_bind.
    apply NoDup_app in Hnd as (_ & Hdisj & [Ha _]%NoDup_cons).
    unfold rank_of. rewrite !index_app_r.
    + simpl. rewrite decide_True by done.
      destruct (index_is_Some i ids Hi) as [n ->].
      case_decide; simpl; lia.
    + intros ?. eapply Hdisj; [done|]. by right.
    + intros ?. eapply Hdisj; [done|]. left.
  - apply StronglySorted_all.
    by intros x y [-> _]%list_elem_of_filter [-> _]%list_elem_of_filter.
  - specialize (IH (pre ++ [a])). rewrite <- app_assoc in IH. by apply IH.
Qed.

(** With ids as primary key, [resolve] returns the rank sequence itself,
    each id replaced by its row when the catalog has one and dropped when it
    has none. *)
Lemma resolve_resolved catalog ids w :
  NoDup (id <$> catalog) → NoDup ids →
  Recommender.resolve catalog ids w = (Ok (resolved catalog ids), w).
Proof.
  intros Hc Hi. destruct (resolve_spec catalog ids w) as (res & -> & Hp & Hs).
  do 2 f_equal.
  assert (Hin : ∀ x, x ∈ res ↔ x ∈ catalog ∧ id x ∈ ids).
  { intros x. rewrite Hp. unfold Objects.filter_id_in.
    rewrite list_elem_of_filter. tauto. }
  eapply (StronglySorted_unique_strong _ res (resolved catalog ids)); [|done|..].
  - intros x y [? ?]%Hin [? ?]%elem_of_resolved ? ?.
    apply (NoDup_fmap_inj_on id catalog); [done..|].
    apply (rank_of_inj ids); [done..|]. lia.
  - by apply (resolved_sorted catalog []).
  - apply NoDup_Permutation.
    + rewrite Hp. apply NoDup_filter. by eapply NoDup_fmap_1.
    + by apply NoDup_resolved.
    + intros x. by rewrite Hin, elem_of_resolved.
Qed.

Lemma resolved_ids_sublist catalog ids :
  NoDup (id <$> catalog) → id <$> resolved catalog ids `sublist_of` ids.
Proof.
  intros Hc. induction ids as [|a ids IH]; [done|].
  unfold resolved. rewrite bind_cons, fmap_app.
  apply (sublist_app _ [a] _ ids); [|done].
  destruct (filter (λ p, id p = a) catalog) as [|x [|y l]] eqn:E.
  - apply sublist_nil_l.
  - assert (x ∈ filter (λ p, id p = a) catalog) as [Hx _]%list_elem_of_filter
      by (rewrite E; left). csimpl. by rewrite Hx.
  - exfalso.
    assert (NoDup (x :: y :: l)) as [Hx _]%NoDup_cons
      by (rewrite <- E; apply NoDup_filter; by eapply NoDup_fmap_1).
    assert (x ∈ filter (λ p, id p = a) catalog) as [? ?]%list_elem_of_filter
      by (rewrite E; left).
    assert (y ∈ filter (λ p, id p = a) catalog) as [? ?]%list_elem_of_filter
      by (rewrite E; right; left).
    apply Hx. rewrite (NoDup_fmap_inj_on id catalog x y); [left|done..|congruence].
Qed.

(** ** The store calls of a query *)

Lemma no_faults_next w d lg :
  no_faults w → no_faults (World d (tail (faults w)) lg).
Proof. apply no_faults_tail. Qed.

Lemma tail_drop {A} (l : list A) n : tail (drop n l) = drop (S n) l.
Proof.
  revert n. induction l as [|x l IH]; intros [|n]; simpl; done.
Qed.

(** Closes a goal with a hypothesis [x ∈ [y1; ..; yn]] in which [x] differs
    from every [yi] by its constructors. *)
Ltac no_such_elem H :=
  repeat (apply elem_of_cons in H as [H|H]; [discriminate H|]);
  by apply elem_of_nil in H.

Ltac solve_no_faults :=
  first [assumption | apply no_faults_next; solve_no_faults].

Lemma zunionstore_ok dest keys w :
  head (faults w) ≠ Some true → keys ≠ [] →
  Redis.zunionstore dest keys w
  = (Ok (Z.of_nat (size (Redis.zunion (db w) keys))),
     World (Redis.store dest (Redis.zunion (db w) keys) (db w))
           (tail (faults w)) (log w ++ [ZUNIONSTORE dest keys])).
Proof.
  intros Hw Hk. unfold Redis.zunionstore. rewrite execute_ok by done.
  by destruct keys.
Qed.

Lemma zrem_ok name values w :
  head (faults w) ≠ Some true → values ≠ [] →
  Redis.zrem name values w
  = (Ok (Z.of_nat (size (Redis.zset (db w) name))
         - Z.of_nat (size (foldr delete (Redis.zset (db w) name) values))),
     World (Redis.store name (foldr delete (Redis.zset (db w) name) values) (db w))
           (tail (faults w)) (log w ++ [ZREM name values])).
Proof.
  intros Hw Hv. unfold Redis.zrem. rewrite execute_ok by done.
  by destruct values.
Qed.

Lemma zrange_desc_ok name w :
  head (faults w) ≠ Some true →
  Redis.zrange_desc name w
  = (Ok (Redis.zrange_of (Redis.zset (db w) name)),
     World (db w) (tail (faults w)) (log w ++ [ZRANGE_DESC name])).
Proof. intros Hw. unfold Redis.zrange_desc. by rewrite execute_ok. Qed.

Lemma delete_ok name w :
  head (faults w) ≠ Some true →
  Redis.delete name w
  = (Ok (if db w !! name is Some _ then 1 else 0),
     World (delete name (db w)) (tail (faults w)) (log w ++ [DEL name])).
Proof. intros Hw. unfold Redis.delete. by rewrite execute_ok. Qed.

Lemma suggestions_ok products max_results w :
  no_faults w → products ≠ [] →
  let ids := id <$> products in
  Recommender.suggestions products max_results w
  = (Ok (slice_to (Redis.zrange_of (ranking_set (db w) ids)) max_results),
     World (after_suggest (db w) ids)
           (drop (length (suggest_calls ids)) (faults w))
           (log w ++ suggest_calls ids)).
Proof.
  intros Hw Hne. unfold Recommender.suggestions. cbv zeta.
  assert (id <$> products ≠ []) as Hids by by destruct products.
  revert Hids. generalize (id <$> products). clear Hne.
  intros [|p [|q ids]] Hids; [done|..].
  - erewrite bind_Ok by (apply zrange_desc_ok, no_faults_head; solve_no_faults).
    unfold mret, M_ret. simpl. by rewrite <- (tail_drop _ 0), drop_0.
  - set (ids' := p :: q :: ids) in *.
    erewrite bind_Ok
      by (apply zunionstore_ok; [apply no_faults_head; solve_no_faults|done]).
    erewrite bind_Ok
      by (apply zrem_ok; [apply no_faults_head; solve_no_faults|done]).
    erewrite bind_Ok by (apply zrange_desc_ok, no_faults_head; solve_no_faults).
    erewrite bind_Ok by (apply delete_ok, no_faults_head; solve_no_faults).
    unfold mret, M_ret, after_suggest, ranking_set, suggest_calls. fold ids'.
    cbn [db faults log length ids'].
    rewrite zset_store_eq, store_store, zset_store_eq, delete_store.
    by rewrite <- !app_assoc, <- !tail_drop, drop_0.
Qed.

Lemma suggestions_fault products max_results w k fs :
  faults w = replicate k false ++ true :: fs → products ≠ [] →
  let ids := id <$> products in
  (k < length (suggest_calls ids))%nat →
  Recommender.suggestions products max_results w
  = (Raise RedisError,
     World (after_calls (db w) ids k) fs
           (log w ++ take (S k) (suggest_calls ids))).
Proof.
  intros Hf Hne. unfold Recommender.suggestions. cbv zeta.
  assert (id <$> products ≠ []) as Hids by by destruct products.
  revert Hids. generalize (id <$> products). clear Hne.
  intros [|p [|q ids]] Hids Hk; [done|..].
  - simpl in Hk. assert (k = 0%nat) as -> by lia. simpl in Hf.
    erewrite bind_Raise; [done|]. unfold Redis.zrange_desc.
    by erewrite execute_fault.
  - set (ids' := p :: q :: ids) in *. simpl in Hk.
    unfold after_calls, suggest_calls. fold ids'.
    destruct k as [|k]; simpl in Hf.
    { erewrite bind_Raise; [done|]. unfold Redis.zunionstore.
      by erewrite execute_fault. }
    erewrite bind_Ok by (apply zunionstore_ok; [by rewrite Hf|done]).
    destruct k as [|k]; simpl in Hf.
    { erewrite bind_Raise; [|unfold Redis.zrem; erewrite execute_fault; [done|]];
        simpl; by rewrite ?Hf, <- ?app_assoc. }
    erewrite bind_Ok by (apply zrem_ok; [simpl; by rewrite Hf|done]).
    cbn [db faults log]. rewrite zset_store_eq, store_store.
    destruct k as [|k]; simpl in Hf.
    { erewrite bind_Raise; [|unfold Redis.zrange_desc; erewrite execute_fault; [done|]];
        simpl; by rewrite ?Hf, <- ?app_assoc. }
    erewrite bind_Ok by (apply zrange_desc_ok; simpl; by rewrite Hf).
    cbn [db faults log].
    destruct k as [|k]; simpl in Hf; [|lia].
    erewrite bind_Raise; [|unfold Redis.delete; erewrite execute_fault; [done|]];
      simpl; by rewrite ?Hf, <- ?app_assoc.
Qed.

(** ** The set a query ranks *)

Lemma zunion_acc_score d keys (acc : gmap Z Z) m :
  default 0 (foldl (λ acc k, union_with (λ a b, Some (a + b)) acc (Redis.zset d k))
               acc keys !! m)
  = default 0 (acc !! m)
    + foldr (λ k n, default 0 (Redis.zset d k !! m) + n) 0 keys.
Proof.
  revert acc. induction keys as [|k keys IH]; intros acc; simpl; [lia|].
  rewrite IH, lookup_union_with.
  destruct (acc !! m), (Redis.zset d k !! m); simpl; lia.
Qed.

Lemma zunion_score d ids m :
  default 0 (Redis.zunion d (Recommender.get_product_key <$> ids) !! m)
  = aggregate d ids m.
Proof.
  unfold Redis.zunion. rewrite zunion_acc_score, lookup_empty.
  assert (foldr (λ k n, default 0 (Redis.zset d k !! m) + n) 0
            (Recommender.get_product_key <$> ids) = aggregate d ids m) as ->.
  { unfold aggregate, score. induction ids as [|i ids IH]; csimpl; [done|].
    by rewrite IH. }
  simpl. lia.
Qed.

Lemma ranking_set_score d ids m s :
  ranking_set d ids !! m = Some s → s = aggregate d ids m.
Proof.
  assert (H : foldr delete (Redis.zunion d (Recommender.get_product_key <$> ids))
                ids !! m = Some s → s = aggregate d ids m).
  { intros [_ H]%lookup_foldr_delete_Some.
    by rewrite <- zunion_score, H. }
  destruct ids as [|p [|q ids]]; [done| |done].
  unfold ranking_set, aggregate, score. simpl. intros ->. simpl. lia.
Qed.

Lemma ranking_set_excludes d ids m :
  no_self_loop d → is_Some (ranking_set d ids !! m) → m ∉ ids.
Proof.
  intros Hd [s Hs].
  assert (H : foldr delete (Redis.zunion d (Recommender.get_product_key <$> ids))
                ids !! m = Some s → m ∉ ids).
  { by intros [? _]%lookup_foldr_delete_Some. }
  destruct ids as [|p [|q ids]]; [by apply H| |by apply H].
  unfold ranking_set in Hs. intros ->%list_elem_of_singleton.
  by rewrite Hd in Hs.
Qed.

Lemma incr_body_no_self_loop p w :
  p.1 ≠ p.2 → no_self_loop (db w) → no_self_loop (db (incr_body p w).2).
Proof.
  intros Hp Hw. destruct (faults w) as [|[] fs] eqn:E.
  - rewrite incr_body_ok by by rewrite E. by apply no_self_loop_incr.
  - by erewrite incr_body_fault.
  - rewrite incr_body_ok by by rewrite E. by apply no_self_loop_incr.
Qed.

Lemma products_bought_no_self_loop self products w :
  no_self_loop (db w) →
  no_self_loop (db (Recommender.products_bought self products w).2).
Proof.
  intros Hw. destruct (redis self) as [c|] eqn:Hc.
  - erewrite products_bought_pairs by done.
    apply (for_invariant (λ w, no_self_loop (db w))); [|done].
    intros [a b] w' (_ & _ & ?)%elem_of_pairs ?.
    by apply incr_body_no_self_loop.
  - unfold Recommender.products_bought. by rewrite Hc.
Qed.

Lemma reachable_no_self_loop w : reachable w → no_self_loop (db w).
Proof.
  induction 1 as [fs|self products w _ IH].
  - intros p. unfold Redis.zset. simpl. by rewrite lookup_empty.
  - by apply products_bought_no_self_loop.
Qed.

Lemma suggestions_Ok_inv products max_results w l w' :
  Recommender.suggestions products max_results w = (Ok l, w') →
  ∃ zs, l = slice_to (Redis.zrange_of zs) max_results.
Proof.
  unfold Recommender.suggestions. cbv zeta. generalize (id <$> products).
  intros [|p [|q ids]]; unfold mbind, M_bind.
  - unfold Redis.zunionstore, Redis.execute.
    by destruct (faults w) as [|[] ?].
  - unfold Redis.zrange_desc, Redis.execute.
    destruct (faults w) as [|[] ?]; intros [= <- _]; eauto.
  - unfold Redis.zunionstore, Redis.zrem, Redis.zrange_desc, Redis.delete,
      Redis.execute.
    destruct (faults w) as [|[] [|[] [|[] [|[] ?]]]];
      cbn [faults tail db log fmap list_fmap]; try discriminate;
      intros [= <- _]; eauto.
Qed.

Lemma StronglySorted_fmap_inv {A B} (f : A → B) (R : relation B) (l : list A) :
  StronglySorted R (f <$> l) → StronglySorted (λ x y, R (f x) (f y)) l.
Proof.
  induction l as [|x l IH]; csimpl; [constructor|].
  intros [Hs Hx]%StronglySorted_inv. constructor; [by apply IH|].
  by rewrite Forall_fmap in Hx.
Qed.

(** ** Suggestions *)

Lemma suggest_connected self c catalog products max_results w ranked w1 :
  redis self = Some c →
  Recommender.suggestions products max_results w = (Ok ranked, w1) →
  Recommender.suggest_products_for self catalog products max_results w
  = Recommender.resolve catalog ranked w1.
Proof.
  intros Hc Hs. unfold Recommender.suggest_products_for. rewrite Hc.
  by erewrite bind_Ok.
Qed.

Lemma suggest_disconnected self catalog products max_results w :
  redis self = None →
  Recommender.suggest_products_for self catalog products max_results w = (Ok [], w).
Proof. intros Hc. unfold Recommender.suggest_products_for. by rewrite Hc. Qed.

(** C2: in every world reached by recording purchases, a query over a
    non-empty list of products whose store calls succeed returns a list in
    which no queried product occurs; with a single product [p], the list
    does not hold [p]. *)
Theorem suggest_excludes_query self catalog products max_results w :
  reachable w → no_faults w → products ≠ [] →
  ∃ res w',
    Recommender.suggest_products_for self catalog products max_results w
    = (Ok res, w') ∧
    ∀ x, x ∈ res → id x ∉ id <$> products.
Proof.
  intros Hr Hw Hne. destruct (redis self) as [c|] eqn:Hc.
  - erewrite suggest_connected by (done || by apply suggestions_ok).
    match goal with |- context [Recommender.resolve _ ?l ?w1] =>
      destruct (resolve_spec catalog l w1) as (res & -> & Hp & _) end.
    exists res. eexists. split; [done|].
    intros x Hx. rewrite Hp in Hx.
    apply list_elem_of_filter in Hx as [Hx _].
    eapply elem_of_sublist in Hx; [|apply slice_to_sublist].
    apply elem_of_zrange_of in Hx.
    eapply ranking_set_excludes; [|done]. by apply reachable_no_self_loop.
  - rewrite suggest_disconnected by done. exists [], w. split; [done|].
    by intros x ?%elem_of_nil.
Qed.

(** C3: a query whose store calls succeed returns at most [max_results]
    products, for a positive [max_results], in order of non-increasing
    aggregate score. *)
Theorem suggest_top_k_sorted self catalog products max_results w :
  no_faults w → NoDup (id <$> catalog) → products ≠ [] → 0 < max_results →
  ∃ res w',
    Recommender.suggest_products_for self catalog products max_results w
    = (Ok res, w') ∧
    Z.of_nat (length res) ≤ max_results ∧
    StronglySorted
      (λ x y, aggregate (db w) (id <$> products) (id y)
              ≤ aggregate (db w) (id <$> products) (id x)) res.
Proof.
  intros Hw Hcat Hne Hk. destruct (redis self) as [c|] eqn:Hc.
  - erewrite suggest_connected by (done || by apply suggestions_ok).
    set (zs := ranking_set (db w) (id <$> products)).
    assert (slice_to (Redis.zrange_of zs) max_results
              `sublist_of` Redis.zrange_of zs) as Hsub by apply slice_to_sublist.
    rewrite resolve_resolved; [|done|].
    2:{ eapply sublist_NoDup; [apply NoDup_zrange_of|exact Hsub]. }
    eexists _, _. split; [done|].
    pose proof (resolved_ids_sublist catalog
      (slice_to (Redis.zrange_of zs) max_results) Hcat) as Hres.
    split.
    + apply sublist_length in Hres. rewrite length_fmap in Hres.
      pose proof (slice_to_length (Redis.zrange_of zs) max_results). lia.
    + apply (StronglySorted_fmap_inv id
        (λ m1 m2, aggregate (db w) (id <$> products) m2
                  ≤ aggregate (db w) (id <$> products) m1)).
      eapply StronglySorted_sublist; [by etrans|].
      apply zrange_of_sorted. intros m s. apply ranking_set_score.
  - rewrite suggest_disconnected by done. exists [], w.
    split_and!; [done|simpl; lia|constructor].
Qed.

(** C8: whatever rank sequence the store part of a query produces, the
    query returns that sequence with every id replaced by its catalog row,
    in the same order, and with the ids the catalog does not hold left
    out: nothing is put in their place and no exception is raised. *)
Theorem suggest_resolves_in_rank_order
    self c catalog products max_results w ranked w' :
  redis self = Some c → NoDup (id <$> catalog) →
  Recommender.suggestions products max_results w = (Ok ranked, w') →
  Recommender.suggest_products_for self catalog products max_results w
  = (Ok (resolved catalog ranked), w') ∧
  id <$> resolved catalog ranked `sublist_of` ranked ∧
  ∀ x, x ∈ resolved catalog ranked ↔ x ∈ catalog ∧ id x ∈ ranked.
Proof.
  intros Hc Hcat Hs. erewrite suggest_connected by done.
  destruct (suggestions_Ok_inv _ _ _ _ _ Hs) as [zs ->].
  split_and!.
  - apply resolve_resolved; [done|].
    eapply sublist_NoDup; [apply NoDup_zrange_of|apply slice_to_sublist].
  - by apply resolved_ids_sublist.
  - intros x. apply elem_of_resolved.
Qed.

(** ** Clearing *)

Lemma clear_loop_ok ids w :
  no_faults w →
  for_ ids (λ product_id,
    Redis.delete (Recommender.get_product_key product_id);; mret ()) w
  = (Ok (),
     World (foldl (λ d i, delete (Recommender.get_product_key i) d) (db w) ids)
           (drop (length ids) (faults w))
           (log w ++ ((λ i, DEL (Recommender.get_product_key i)) <$> ids))).
Proof.
  revert w. induction ids as [|i ids IH]; intros w Hw; simpl.
  - rewrite drop_0, app_nil_r. by destruct w.
  - unfold mbind at 1, M_bind.
    erewrite bind_Ok by (by apply delete_ok, no_faults_head).
    unfold mret at 1, M_ret. rewrite IH by by apply no_faults_tail.
    simpl. rewrite <- app_assoc. simpl.
    destruct (faults w); simpl; by rewrite ?drop_nil.
Qed.

Lemma lookup_cleared ids (d : gmap string (gmap Z Z)) key :
  d !! key = None ∨ (∃ i, i ∈ ids ∧ key = Recommender.get_product_key i) →
  foldl (λ d i, delete (Recommender.get_product_key i) d) d ids !! key = None.
Proof.
  revert d. induction ids as [|j ids IH]; intros d; simpl.
  - intros [?|(i & ?%elem_of_nil & _)]; done.
  - intros [H|(i & [->|Hi]%elem_of_cons & ->)]; apply IH.
    + left. rewrite lookup_delete_None. by right.
    + left. apply lookup_delete_eq.
    + right. eauto.
Qed.

(** C9: after the sets of all catalog products have been cleared, with store
    calls succeeding, the query for any single catalog product returns the
    empty list, for every result limit. *)
Theorem clear_purchases_total self catalog catalog' p max_results w :
  no_faults w → p ∈ catalog →
  let cleared := Recommender.clear_purchases self catalog w in
  cleared.1 = Ok () ∧
  ∃ w', Recommender.suggest_products_for self catalog' [p] max_results cleared.2
        = (Ok [], w').
Proof.
  intros Hw Hp. destruct (redis self) as [c|] eqn:Hc; cbv zeta.
  - unfold Recommender.clear_purchases. rewrite Hc, clear_loop_ok by done.
    split; [done|]. cbn [snd].
    erewrite suggest_connected;
      [|done|apply suggestions_ok; [by apply no_faults_drop|done]].
    cbn [db fmap list_fmap ranking_set]. unfold Redis.zset.
    rewrite lookup_cleared.
    2:{ right. exists (id p). split; [|done]. unfold Objects.values_list_id.
        apply list_elem_of_fmap. eauto. }
    cbn [default]. rewrite zrange_of_empty, slice_to_nil.
    match goal with |- context [Recommender.resolve _ ?l ?w1] =>
      destruct (resolve_spec catalog' l w1) as (res & -> & Hperm & _) end.
    eexists. do 2 f_equal. destruct res as [|x res]; [done|].
    assert (x ∈ Objects.filter_id_in catalog' []) as [[]%elem_of_nil _]%list_elem_of_filter.
    rewrite <- Hperm. left.
  - unfold Recommender.clear_purchases. rewrite Hc. split; [done|].
    rewrite suggest_disconnected by done. eauto.
Qed.

(** C7: when the ping of the constructor fails, the exception is caught and
    the engine is left without a client; from then on a query returns the
    empty list and recording or clearing returns, each without a store call
    and with the world exactly as it was. *)
Theorem degraded_mode_is_silent settings d fs lg :
  ∃ self,
    Recommender.__init__ settings (World d (true :: fs) lg)
    = (Ok self, World d fs (lg ++ [PING])) ∧
    redis self = None ∧
    ∀ catalog products max_results w,
      Recommender.suggest_products_for self catalog products max_results w
      = (Ok [], w) ∧
      Recommender.products_bought self products w = (Ok (), w) ∧
      Recommender.clear_purchases self catalog w = (Ok (), w).
Proof.
  exists {| redis := None |}. split_and!; [|done..].
  unfold Recommender.__init__, try_except_RedisError.
  erewrite bind_Raise by (unfold Redis.ping; by erewrite execute_fault).
  done.
Qed.

(** ** Failing store calls *)

(** C4, as the code has it: when call number [k] of an operation is the
    first to raise, recording or querying stops there and the exception
    leaves the engine; the [k] calls before it keep their effect on the
    store, and no further call is issued. *)
Theorem store_failure_propagates
    self c catalog products max_results w k fs :
  redis self = Some c →
  faults w = replicate k false ++ true :: fs →
  products ≠ [] →
  let ids := id <$> products in
  ((k < length (pairs ids))%nat →
   Recommender.products_bought self products w
   = (Raise RedisError,
      World (foldl incr (db w) (take k (pairs ids))) fs
            (log w ++ (incr_call <$> take (S k) (pairs ids))))) ∧
  ((k < length (suggest_calls ids))%nat →
   Recommender.suggest_products_for self catalog products max_results w
   = (Raise RedisError,
      World (after_calls (db w) ids k) fs
            (log w ++ take (S k) (suggest_calls ids)))).
Proof.
  intros Hc Hf Hne ids. split; intros Hk.
  - erewrite products_bought_pairs by done. by apply incr_loop_fault.
  - unfold Recommender.suggest_products_for. rewrite Hc.
    erewrite bind_Raise; [done|]. by apply suggestions_fault.
Qed.

(** C6, as the code has it: a query over several products whose store calls
    all succeed issues the deletion of its transient key as its last call and
    leaves the store without that key; when one of the three calls before
    the deletion raises, the query ends with that exception and the deletion
    is not issued. *)
Theorem tmp_key_deleted_on_success self c catalog products max_results w :
  redis self = Some c → (1 < length products)%nat →
  let ids := id <$> products in
  let t := Recommender.tmp_key ids in
  (no_faults w →
   let r := Recommender.suggest_products_for self catalog products max_results w in
   (∃ res, r.1 = Ok res) ∧
   log r.2 = log w ++ [ZUNIONSTORE t (Recommender.get_product_key <$> ids);
                       ZREM t ids; ZRANGE_DESC t; DEL t] ∧
   db r.2 = delete t (db w) ∧
   db r.2 !! t = None) ∧
  (∀ k, (k < 3)%nat → fails_at k w →
   let r := Recommender.suggest_products_for self catalog products max_results w in
   r.1 = Raise RedisError ∧
   db r.2 = after_calls (db w) ids k ∧
   ∃ issued, log r.2 = log w ++ issued ∧ DEL t ∉ issued).
Proof.
  intros Hc Hlen ids t.
  assert (products ≠ []) as Hne by (destruct products; [simpl in Hlen; lia|done]).
  assert (∃ p q l, ids = p :: q :: l) as (p & q & l & Hids).
  { subst ids. destruct products as [|x [|y l]]; simpl in Hlen; try lia.
    by eexists _, _, _. }
  split.
  - intros Hw r. subst r.
    erewrite suggest_connected by (done || by apply suggestions_ok).
    match goal with |- context [Recommender.resolve _ ?l ?w1] =>
      destruct (resolve_spec catalog l w1) as (res & -> & _ & _) end.
    cbn [fst snd db log]. fold ids. unfold after_suggest, suggest_calls.
    fold t. rewrite Hids. split_and!; eauto. apply lookup_delete_eq.
  - intros k Hk [fs Hfs] r. subst r.
    unfold Recommender.suggest_products_for. rewrite Hc.
    erewrite bind_Raise;
      [|apply suggestions_fault; [done..|fold ids; rewrite Hids; simpl; lia]].
    cbn [fst snd db log]. fold ids. split_and!; [done..|].
    eexists. split; [done|]. unfold suggest_calls. rewrite Hids.
    intros H. do 3 (destruct k as [|k]; [simpl in H; no_such_elem H|]). lia.
Qed.

(** C5, as the code has it: the transient key of a query over several
    products is the prefix followed by the decimal texts of the queried ids in
    the order given; two queries with the same ids in the same order use the
    same key. *)
Theorem tmp_key_of_sequence products1 products2 max1 max2 w1 w2 :
  no_faults w1 → no_faults w2 → (1 < length products1)%nat →
  id <$> products1 = id <$> products2 →
  ∃ t keys ids,
    t = "tmp_" +:+ Recommender.flat_ids (id <$> products1) ∧
    log (Recommender.suggestions products1 max1 w1).2
    = log w1 ++ [ZUNIONSTORE t keys; ZREM t ids; ZRANGE_DESC t; DEL t] ∧
    log (Recommender.suggestions products2 max2 w2).2
    = log w2 ++ [ZUNIONSTORE t keys; ZREM t ids; ZRANGE_DESC t; DEL t].
Proof.
  intros Hw1 Hw2 Hlen Hids.
  assert (products1 ≠ []) by (destruct products1; [simpl in Hlen; lia|done]).
  assert (products2 ≠ []).
  { intros ->. by destruct products1. }
  rewrite !suggestions_ok by done. cbn [snd log]. rewrite <- Hids.
  destruct products1 as [|x [|y l]]; simpl in Hlen; try lia.
  by eexists _, _, _.
Qed.

(** C10: the transient key does not tell query sets apart: the queries for
    the ids 1 and 23 and for the ids 12 and 3 both work on the key
    [tmp_123]. *)
Theorem tmp_key_not_injective :
  (∃ ids1 ids2 : list Z,
     list_to_set ids1 ≠@{gset Z} list_to_set ids2 ∧
     Recommender.tmp_key ids1 = Recommender.tmp_key ids2) ∧
  Recommender.tmp_key [1; 23] = "tmp_123" ∧
  Recommender.tmp_key [12; 3] = "tmp_123" ∧
  log (Recommender.suggestions
         [sample_product 1 "tea"; sample_product 23 "jar"] 6 empty_world).2
  = [ZUNIONSTORE "tmp_123" ["product:1:purchased_with"; "product:23:purchased_with"];
     ZREM "tmp_123" [1; 23]; ZRANGE_DESC "tmp_123"; DEL "tmp_123"] ∧
  log (Recommender.suggestions
         [sample_product 12 "cup"; sample_product 3 "pot"] 6 empty_world).2
  = [ZUNIONSTORE "tmp_123" ["product:12:purchased_with"; "product:3:purchased_with"];
     ZREM "tmp_123" [12; 3]; ZRANGE_DESC "tmp_123"; DEL "tmp_123"].
Proof.
  split_and!; [|done..].
  exists [1; 23], [12; 3]. split; [|done].
  intros H. assert (1 ∈ list_to_set (C:=gset Z) [12; 3]) as Hin.
  { rewrite <- H. apply elem_of_list_to_set. left. }
  apply elem_of_list_to_set in Hin. no_such_elem Hin.
Qed.

(** ** The properties on the sample data *)

Lemma no_faults_sample_world : no_faults sample_world.
Proof. vm_compute. constructor. Qed.

Lemma products_bought_increments_witness :
  redis connected = Some sample_settings ∧
  no_faults empty_world ∧
  NoDup (id <$> [tea; mug; pot]) ∧
  ∃ issued,
    log sample_world = issued ∧ length issued = 6%nat ∧
    score (db sample_world) 1 2 = score (db empty_world) 1 2 + 1 ∧
    score (db sample_world) 2 1 = score (db empty_world) 2 1 + 1.
Proof.
  assert (H1 : no_faults empty_world) by constructor.
  assert (H2 : NoDup (id <$> [tea; mug; pot])) by compute_done.
  split_and!; [done..|].
  destruct (products_bought_increments connected sample_settings
              [tea; mug; pot] empty_world eq_refl H1 H2)
    as (issued & _ & Hlog & Hlen & _ & _ & _ & Hscore & _).
  exists issued. split_and!; [exact Hlog|exact Hlen|..];
    apply (Hscore 1 2); compute_done.
Defined.

Lemma suggest_excludes_query_witness :
  reachable sample_world ∧ no_faults sample_world ∧ [tea; mug] ≠ [] ∧
  ∃ res w',
    Recommender.suggest_products_for connected sample_catalog [tea; mug] 5
      sample_world = (Ok res, w') ∧
    ∀ x, x ∈ res → id x ∉ id <$> [tea; mug].
Proof.
  assert (H1 : reachable sample_world) by apply reachable_bought, reachable_empty.
  split_and!; [done|apply no_faults_sample_world|done|].
  by apply suggest_excludes_query; [|apply no_faults_sample_world|].
Defined.

Lemma suggest_top_k_sorted_witness :
  no_faults sample_world ∧ NoDup (id <$> sample_catalog) ∧ [tea] ≠ [] ∧ 0 < 1 ∧
  ∃ res w',
    Recommender.suggest_products_for connected sample_catalog [tea] 1
      sample_world = (Ok res, w') ∧
    Z.of_nat (length res) ≤ 1 ∧
    StronglySorted
      (λ x y, aggregate (db sample_world) (id <$> [tea]) (id y)
              ≤ aggregate (db sample_world) (id <$> [tea]) (id x)) res.
Proof.
  assert (H2 : NoDup (id <$> sample_catalog)) by compute_done.
  split_and!; [apply no_faults_sample_world|done|done|lia|].
  apply suggest_top_k_sorted; [apply no_faults_sample_world|done|done|lia].
Defined.

Lemma suggest_resolves_in_rank_order_witness :
  redis connected = Some sample_settings ∧
  NoDup (id <$> sample_catalog) ∧
  Recommender.suggestions [tea] 5 sample_world
  = (Ok [3; 2], World (db sample_world) []
                  (log sample_world ++ [ZRANGE_DESC "product:1:purchased_with"])) ∧
  Recommender.suggest_products_for connected [mug; tea] [tea] 5 sample_world
  = (Ok [mug], World (db sample_world) []
                 (log sample_world ++ [ZRANGE_DESC "product:1:purchased_with"])).
Proof.
  assert (H2 : NoDup (id <$> [mug; tea])) by compute_done.
  assert (H3 : Recommender.suggestions [tea] 5 sample_world
    = (Ok [3; 2], World (db sample_world) []
                    (log sample_world ++ [ZRANGE_DESC "product:1:purchased_with"])))
    by (vm_compute; reflexivity).
  split_and!; [done|compute_done|exact H3|].
  exact (proj1 (suggest_resolves_in_rank_order connected sample_settings
                  [mug; tea] [tea] 5 sample_world _ _ eq_refl H2 H3)).
Defined.

Lemma clear_purchases_total_witness :
  no_faults sample_world ∧ tea ∈ sample_catalog ∧
  (Recommender.clear_purchases connected sample_catalog sample_world).1 = Ok () ∧
  ∃ w', Recommender.suggest_products_for connected sample_catalog [tea] 5
          (Recommender.clear_purchases connected sample_catalog sample_world).2
        = (Ok [], w').
Proof.
  assert (H2 : tea ∈ sample_catalog) by compute_done.
  split; [apply no_faults_sample_world|]. split; [done|].
  exact (clear_purchases_total connected sample_catalog sample_catalog tea 5
           sample_world no_faults_sample_world H2).
Defined.

(** With the second store call raising, recording the three sample products
    ends with the exception and keeps its first increment; a query ends with
    the exception as well, not with the empty list. *)
Lemma store_failure_not_silent :
  (Recommender.products_bought connected [tea; mug; pot]
     (second_call_fails ∅)).1 = Raise RedisError ∧
  score (db (Recommender.products_bought connected [tea; mug; pot]
               (second_call_fails ∅)).2) 1 2 = 1 ∧
  score (db (second_call_fails ∅)) 1 2 = 0 ∧
  (Recommender.suggest_products_for connected sample_catalog [tea; mug] 5
     (second_call_fails (db sample_world))).1 = Raise RedisError.
Proof. split_and!; vm_compute; reflexivity. Qed.

Lemma store_failure_propagates_witness :
  redis connected = Some sample_settings ∧
  faults (second_call_fails ∅) = replicate 1 false ++ true :: [] ∧
  [tea; mug; pot] ≠ [] ∧
  Recommender.products_bought connected [tea; mug; pot] (second_call_fails ∅)
  = (Raise RedisError,
     World (incr ∅ (1, 2)) []
           [ZINCRBY "product:1:purchased_with" 1 2;
            ZINCRBY "product:1:purchased_with" 1 3]) ∧
  (Recommender.suggest_products_for connected sample_catalog [tea; mug; pot] 5
     (second_call_fails ∅)).1 = Raise RedisError.
Proof.
  split_and!; [done..| |].
  - refine (proj1 (store_failure_propagates connected sample_settings
      sample_catalog [tea; mug; pot] 5 (second_call_fails ∅) 1 []
      eq_refl eq_refl _) _); [done|]. vm_compute. lia.
  - erewrite (proj2 (store_failure_propagates connected sample_settings
      sample_catalog [tea; mug; pot] 5 (second_call_fails ∅) 1 []
      eq_refl eq_refl _)); [done|]. vm_compute. lia.
  Unshelve. all: done.
Defined.

(** The lists [1; 2] and [2; 1] hold the same ids and so do [1; 2; 2] and
    [1; 2], yet the transient keys differ. *)
Lemma tmp_key_depends_on_sequence :
  list_to_set [1; 2] =@{gset Z} list_to_set [2; 1] ∧
  Recommender.tmp_key [1; 2] ≠ Recommender.tmp_key [2; 1] ∧
  list_to_set [1; 2; 2] =@{gset Z} list_to_set [1; 2] ∧
  Recommender.tmp_key [1; 2; 2] ≠ Recommender.tmp_key [1; 2].
Proof. split_and!; [|done| |done]; vm_compute; reflexivity. Qed.

Lemma tmp_key_of_sequence_witness :
  no_faults sample_world ∧ no_faults empty_world ∧
  (1 < length [tea; mug])%nat ∧
  id <$> [tea; mug] = id <$> [sample_product 1 "chai"; sample_product 2 "cup"] ∧
  ∃ t keys ids,
    t = "tmp_12" ∧
    log (Recommender.suggestions [tea; mug] 5 sample_world).2
    = log sample_world ++ [ZUNIONSTORE t keys; ZREM t ids; ZRANGE_DESC t; DEL t] ∧
    log (Recommender.suggestions
           [sample_product 1 "chai"; sample_product 2 "cup"] 2 empty_world).2
    = log empty_world ++ [ZUNIONSTORE t keys; ZREM t ids; ZRANGE_DESC t; DEL t].
Proof.
  assert (H2 : no_faults empty_world) by constructor.
  split_and!; [apply no_faults_sample_world|done|simpl; lia|done|].
  apply (tmp_key_of_sequence [tea; mug]
           [sample_product 1 "chai"; sample_product 2 "cup"] 5 2
           sample_world empty_world no_faults_sample_world H2);
    [simpl; lia|done].
Defined.

(** With the member removal raising, the query over tea and mug ends with
    the exception after two calls, the deletion is not among them, and the
    transient key stays in the store with the aggregate in it. *)
Lemma tmp_key_survives_failure :
  (Recommender.suggest_products_for connected sample_catalog [tea; mug] 5
     (second_call_fails (db sample_world))).1 = Raise RedisError ∧
  log (Recommender.suggest_products_for connected sample_catalog [tea; mug] 5
         (second_call_fails (db sample_world))).2
  = [ZUNIONSTORE "tmp_12" ["product:1:purchased_with"; "product:2:purchased_with"];
     ZREM "tmp_12" [1; 2]] ∧
  db sample_world !! "tmp_12" = None ∧
  Redis.zset
    (db (Recommender.suggest_products_for connected sample_catalog [tea; mug] 5
           (second_call_fails (db sample_world))).2) "tmp_12" !! 3 = Some 2.
Proof. split_and!; vm_compute; reflexivity. Qed.

Lemma tmp_key_deleted_on_success_witness :
  redis connected = Some sample_settings ∧
  (1 < length [tea; mug])%nat ∧
  no_faults sample_world ∧
  db (Recommender.suggest_products_for connected sample_catalog [tea; mug] 5
        sample_world).2 !! Recommender.tmp_key [1; 2] = None ∧
  (2 < 3)%nat ∧ fails_at 2 (World (db sample_world) [false; false; true] []) ∧
  (Recommender.suggest_products_for connected sample_catalog [tea; mug] 5
     (World (db sample_world) [false; false; true] [])).1 = Raise RedisError.
Proof.
  assert (H1 : (1 < length [tea; mug])%nat) by (simpl; lia).
  assert (H2 : fails_at 2 (World (db sample_world) [false; false; true] []))
    by (by exists []).
  pose proof (tmp_key_deleted_on_success connected sample_settings
    sample_catalog [tea; mug] 5) as H.
  split_and!; [done|exact H1|apply no_faults_sample_world| |lia|exact H2|].
  - destruct (H sample_world eq_refl H1) as [Hok _].
    destruct (Hok no_faults_sample_world) as (_ & _ & _ & Hgone). exact Hgone.
  - destruct (H (World (db sample_world) [false; false; true] []) eq_refl H1)
      as [_ Hfail].
    destruct (Hfail 2%nat ltac:(lia) H2) as (Hr & _). exact Hr.
Defined.

(** * Further properties of the engine and of its callers *)

(** ** The constructor *)

Lemma ping_ok w :
  head (faults w) ≠ Some true →
  Redis.ping w = (Ok true, World (db w) (tail (faults w)) (log w ++ [PING])).
Proof. intros. unfold Redis.ping. by rewrite execute_ok. Qed.

Lemma ping_fault w fs :
  faults w = true :: fs →
  Redis.ping w = (Raise RedisError, World (db w) fs (log w ++ [PING])).
Proof. intros. unfold Redis.ping. by erewrite execute_fault. Qed.

Lemma init_ok settings w :
  head (faults w) ≠ Some true →
  Recommender.__init__ settings w
  = (Ok {| redis := Some settings |},
     World (db w) (tail (faults w)) (log w ++ [PING])).
Proof.
  intros. unfold Recommender.__init__, try_except_RedisError.
  by erewrite bind_Ok by by apply ping_ok.
Qed.

Lemma init_fault settings w fs :
  faults w = true :: fs →
  Recommender.__init__ settings w
  = (Ok {| redis := None |}, World (db w) fs (log w ++ [PING])).
Proof.
  intros. unfold Recommender.__init__, try_except_RedisError.
  by erewrite bind_Raise by by apply ping_fault.
Qed.

(** X1: the constructor never raises, whatever the ping does: it issues the
    one ping, leaves the keyspace as it is, and holds a client exactly when
    the ping succeeded. *)
Theorem init_never_raises settings w :
  ∃ self,
    Recommender.__init__ settings w
    = (Ok self, World (db w) (tail (faults w)) (log w ++ [PING])) ∧
    (redis self = None ↔ head (faults w) = Some true) ∧
    (redis self = Some settings ↔ head (faults w) ≠ Some true).
Proof.
  destruct (faults w) as [|[] fs] eqn:E.
  - exists {| redis := Some settings |}.
    rewrite init_ok by by rewrite E. rewrite E. by split_and!.
  - exists {| redis := None |}.
    erewrite init_fault by done. by split_and!.
  - exists {| redis := Some settings |}.
    rewrite init_ok by by rewrite E. rewrite E. by split_and!.
Qed.

(** ** What a query leaves alone *)

Lemma tmp_key_not_product_key ids p :
  Recommender.tmp_key ids ≠ Recommender.get_product_key p.
Proof. unfold Recommender.tmp_key, Recommender.get_product_key. discriminate. Qed.

Lemma lookup_store_ne key key' zs d :
  key ≠ key' → Redis.store key zs d !! key' = d !! key'.
Proof.
  intros. unfold Redis.store. case_decide.
  - by rewrite lookup_delete_ne.
  - by rewrite lookup_insert_ne.
Qed.

(** A property of the keyspace that the effect of a call keeps is kept by
    the call, whether it raises or not. *)
Lemma execute_db_frame {A} (P : gmap string (gmap Z Z) → Prop) c
    (eff : _ → result A * _) w :
  (∀ d, P d → P (eff d).2) → P (db w) → P (db (Redis.execute c eff w).2).
Proof.
  intros Heff Hw. specialize (Heff _ Hw). unfold Redis.execute.
  destruct (faults w) as [|[] fs]; destruct (eff (db w)); done.
Qed.

Lemma bind_db_frame {A B} (P : gmap string (gmap Z Z) → Prop)
    (m : M A) (k : A → M B) w :
  P (db (m w).2) → (∀ a w', P (db w') → P (db (k a w').2)) →
  P (db ((m ≫= k) w).2).
Proof.
  intros Hm Hk. unfold mbind, M_bind.
  destruct (m w) as [[a|e] w1]; [by apply Hk|done].
Qed.

Lemma suggestions_frame products max_results w key :
  key ≠ Recommender.tmp_key (id <$> products) →
  db (Recommender.suggestions products max_results w).2 !! key = db w !! key.
Proof.
  intros Hkey. unfold Recommender.suggestions. cbv zeta.
  revert Hkey. generalize (id <$> products). intros ids Hkey.
  set (P := λ d : gmap string (gmap Z Z), d !! key = db w !! key).
  assert (Hstore : ∀ zs d, P d → P (Redis.store (Recommender.tmp_key ids) zs d)).
  { intros zs d Hd. unfold P. by rewrite lookup_store_ne. }
  assert (Hmulti : P (db
    ((Redis.zunionstore (Recommender.tmp_key ids) (Recommender.get_product_key <$> ids);;
      Redis.zrem (Recommender.tmp_key ids) ids;;
      l ← Redis.zrange_desc (Recommender.tmp_key ids);
      Redis.delete (Recommender.tmp_key ids);;
      mret (slice_to l max_results)) w).2)).
  { unfold Redis.zunionstore, Redis.zrem, Redis.zrange_desc, Redis.delete.
    apply (bind_db_frame P).
    { apply (execute_db_frame P); [|done]. intros d Hd.
      destruct (Recommender.get_product_key <$> ids); [done|by apply Hstore]. }
    intros _ w1 H1. apply (bind_db_frame P).
    { apply (execute_db_frame P); [|done]. intros d Hd.
      destruct ids; [done|by apply Hstore]. }
    intros _ w2 H2. apply (bind_db_frame P).
    { by apply (execute_db_frame P). }
    intros l w3 H3. apply (bind_db_frame P); [|done].
    apply (execute_db_frame P); [|done]. intros d Hd. unfold P. simpl.
    by rewrite lookup_delete_ne. }
  destruct ids as [|p [|q ids']]; [exact Hmulti| |exact Hmulti].
  apply (bind_db_frame P); [|done]. unfold Redis.zrange_desc.
  by apply (execute_db_frame P).
Qed.

Lemma resolve_world catalog ids w : (Recommender.resolve catalog ids w).2 = w.
Proof. by destruct (resolve_spec catalog ids w) as (res & -> & _). Qed.

Lemma suggest_frame self catalog products max_results w key :
  key ≠ Recommender.tmp_key (id <$> products) →
  db (Recommender.suggest_products_for self catalog products max_results w).2 !! key
  = db w !! key.
Proof.
  intros Hkey. unfold Recommender.suggest_products_for.
  destruct (redis self); [|done].
  apply (bind_db_frame (λ d, d !! key = db w !! key)).
  - by apply suggestions_frame.
  - intros l w' Hw'. by rewrite resolve_world.
Qed.

(** X2: a query writes to no key but its transient one, whatever it is
    asked, whether connected or not and whether its store calls succeed or
    raise: every other key of the store, and with it every co-purchase score,
    is as before. *)
Theorem suggest_keeps_scores self catalog products max_results w :
  let w' := (Recommender.suggest_products_for self catalog products max_results w).2 in
  (∀ key, key ≠ Recommender.tmp_key (id <$> products) → db w' !! key = db w !! key) ∧
  (∀ a b, score (db w') a b = score (db w) a b).
Proof.
  split.
  - intros key Hkey. by apply suggest_frame.
  - intros a b. unfold score, Redis.zset.
    rewrite suggest_frame; [done|]. intros E. by eapply tmp_key_not_product_key.
Qed.

(** ** Baskets of any shape *)

Lemma occurrences_cons x y ids :
  occurrences x (y :: ids)
  = ((if decide (x = y) then 1 else 0) + occurrences x ids)%nat.
Proof. unfold occurrences. rewrite filter_cons. by case_decide. Qed.

Lemma score_foldl_incr_count ps d a b :
  score (foldl incr d ps) a b
  = score d a b + Z.of_nat (length (filter (λ p, p = (a, b)) ps)).
Proof.
  revert d. induction ps as [|p ps IH]; intros d; cbn [foldl].
  - simpl. lia.
  - rewrite IH, score_incr, filter_cons. case_decide; simpl; lia.
Qed.

Lemma count_partner a b x ids :
  length (filter (λ p, p = (a, b)) ((λ y, (x, y)) <$> filter (λ y, x ≠ y) ids))
  = if decide (x = a ∧ a ≠ b) then occurrences b ids else 0%nat.
Proof.
  induction ids as [|y ids IH].
  - by case_decide.
  - rewrite occurrences_cons, (filter_cons (λ y, x ≠ y)).
    destruct (decide (x ≠ y)) as [Hxy|Hxy]; csimpl.
    + rewrite filter_cons.
      destruct (decide ((x, y) = (a, b))) as [[= -> ->]|Hne]; cbn [length];
        rewrite IH.
      * rewrite !decide_True by done. done.
      * destruct (decide (x = a ∧ a ≠ b)) as [[-> ?]|?]; [|done].
        rewrite decide_False; [done|congruence].
    + apply dec_stable in Hxy as <-. rewrite IH.
      destruct (decide (x = a ∧ a ≠ b)) as [[-> ?]|?]; [|done].
      by rewrite decide_False.
Qed.

Lemma count_pairs a b l ids :
  length (filter (λ p, p = (a, b))
            (x ← l; (λ y, (x, y)) <$> filter (λ y, x ≠ y) ids))
  = if decide (a = b) then 0%nat else (occurrences a l * occurrences b ids)%nat.
Proof.
  induction l as [|x l IH].
  - by case_decide.
  - rewrite bind_cons, filter_app, length_app, IH, count_partner,
      occurrences_cons.
    destruct (decide (a = b)) as [->|Hab].
    + rewrite decide_False; [done|]. by intros [_ ?].
    + destruct (decide (a = x)) as [->|Hax].
      * rewrite decide_True by done. lia.
      * rewrite decide_False; [lia|]. by intros [-> _].
Qed.

(** X3: recording a basket in which products repeat (the caller's promise of
    distinct products broken) raises the score of a pair of different
    products by the product of their numbers of occurrences; the score of a
    product with itself is still never touched. *)
Theorem products_bought_any_basket self c products w a b :
  redis self = Some c → no_faults w →
  let ids := id <$> products in
  score (db (Recommender.products_bought self products w).2) a b
  = score (db w) a b
    + (if decide (a = b) then 0
       else Z.of_nat (occurrences a ids * occurrences b ids)).
Proof.
  intros Hc Hw ids. erewrite products_bought_pairs by done.
  rewrite incr_loop_ok by done. cbn [snd db].
  rewrite score_foldl_incr_count. unfold pairs. rewrite count_pairs.
  by case_decide.
Qed.

(** X4: a basket without two different products (empty, a single product,
    one product repeated) issues no store call at all: the call returns with
    the world untouched even when the store is failing. *)
Theorem products_bought_one_product self products w :
  (∀ x y, x ∈ products → y ∈ products → id x = id y) →
  Recommender.products_bought self products w = (Ok (), w).
Proof.
  intros Hsame. destruct (redis self) as [c|] eqn:Hc.
  - erewrite products_bought_pairs by done.
    assert (pairs (id <$> products) = []) as ->; [|done].
    destruct (pairs (id <$> products)) as [|[a b] ps] eqn:E; [done|].
    assert ((a, b) ∈ pairs (id <$> products)) as (Ha & Hb & Hne)%elem_of_pairs
      by (rewrite E; left).
    apply list_elem_of_fmap in Ha as (x & -> & Hx).
    apply list_elem_of_fmap in Hb as (y & -> & Hy).
    destruct Hne. by apply Hsame.
  - unfold Recommender.products_bought. by rewrite Hc.
Qed.

(** ** Clearing, in full *)

Lemma lookup_cleared_other ids (d : gmap string (gmap Z Z)) key :
  (∀ i, i ∈ ids → key ≠ Recommender.get_product_key i) →
  cleared d ids !! key = d !! key.
Proof.
  revert d. induction ids as [|j ids IH]; intros d H; [done|].
  unfold cleared in *. cbn [foldl]. rewrite IH.
  - apply lookup_delete_ne. intros E. by eapply (H j); [left|].
  - intros i Hi. apply H. by right.
Qed.

Lemma lookup_cleared_in ids (d : gmap string (gmap Z Z)) i :
  i ∈ ids → cleared d ids !! Recommender.get_product_key i = None.
Proof. intros. apply lookup_cleared. right. eauto. Qed.

Lemma clear_purchases_ok self c catalog w :
  redis self = Some c → no_faults w →
  Recommender.clear_purchases self catalog w
  = (Ok (),
     World (cleared (db w) (id <$> catalog))
           (drop (length (id <$> catalog)) (faults w))
           (log w ++ ((λ i, DEL (Recommender.get_product_key i)) <$> (id <$> catalog)))).
Proof.
  intros Hc Hw. unfold Recommender.clear_purchases. rewrite Hc.
  by rewrite clear_loop_ok.
Qed.

Lemma clear_loop_fault ids w k fs :
  faults w = replicate k false ++ true :: fs → (k < length ids)%nat →
  for_ ids (λ product_id,
    Redis.delete (Recommender.get_product_key product_id);; mret ()) w
  = (Raise RedisError,
     World (cleared (db w) (take k ids)) fs
           (log w ++ ((λ i, DEL (Recommender.get_product_key i)) <$> take (S k) ids))).
Proof.
  revert w k. induction ids as [|i ids IH]; intros w k Hf Hk; simpl in Hk; [lia|].
  cbn [for_]. unfold mbind at 1, M_bind. destruct k as [|k]; simpl in Hf.
  - erewrite bind_Raise; [done|]. unfold Redis.delete. by erewrite execute_fault.
  - erewrite bind_Ok by (apply delete_ok; by rewrite Hf).
    unfold mret at 1, M_ret. rewrite (IH _ k); [|simpl; by rewrite Hf|lia].
    simpl. by rewrite <- app_assoc.
Qed.

(** X5: clearing, with store calls succeeding, empties the set of every
    catalog product and touches nothing else: the sets of products that are no
    longer in the catalog, and any other key, stay as they were. *)
Theorem clear_purchases_scope self c catalog w :
  redis self = Some c → no_faults w →
  let w' := (Recommender.clear_purchases self catalog w).2 in
  (∀ p b, p ∈ catalog → score (db w') (id p) b = 0) ∧
  (∀ a b, a ∉ id <$> catalog → score (db w') a b = score (db w) a b) ∧
  (∀ key, (∀ p, p ∈ catalog → key ≠ Recommender.get_product_key (id p)) →
          db w' !! key = db w !! key).
Proof.
  intros Hc Hw. cbv zeta. erewrite clear_purchases_ok by done. cbn [snd db].
  assert (Hother : ∀ key,
    (∀ p, p ∈ catalog → key ≠ Recommender.get_product_key (id p)) →
    cleared (db w) (id <$> catalog) !! key = db w !! key).
  { intros key H. apply lookup_cleared_other.
    intros i (p & -> & Hp)%list_elem_of_fmap. by apply H. }
  split_and!; [| |done].
  - intros p b Hp. unfold score, Redis.zset.
    rewrite lookup_cleared_in; [done|]. apply list_elem_of_fmap. eauto.
  - intros a b Ha. unfold score, Redis.zset. rewrite Hother; [done|].
    intros p Hp ->%(inj _). apply Ha, list_elem_of_fmap. eauto.
Qed.

(** X6: clearing a second time changes nothing: the keyspace after two
    clearings is the keyspace after one. *)
Theorem clear_purchases_twice self c catalog w :
  redis self = Some c → no_faults w →
  let once := Recommender.clear_purchases self catalog w in
  let twice := Recommender.clear_purchases self catalog once.2 in
  twice.1 = Ok () ∧ db twice.2 = db once.2.
Proof.
  intros Hc Hw. cbv zeta. erewrite (clear_purchases_ok _ _ _ w) by done.
  erewrite clear_purchases_ok; [|done|by apply no_faults_drop].
  cbn [fst snd db]. split; [done|]. apply map_eq. intros key.
  destruct (decide (key ∈ Recommender.get_product_key <$> (id <$> catalog)))
    as [(i & -> & Hi)%list_elem_of_fmap|Hn].
  - by rewrite !lookup_cleared_in.
  - apply lookup_cleared_other. intros i Hi ->. apply Hn, list_elem_of_fmap. eauto.
Qed.

(** X7: when deletion number [k] of a clearing raises, the clearing ends
    with that exception: the sets of the first [k] catalog products are gone,
    and those of the products after them are still there. *)
Theorem clear_purchases_stops_at_failure self c catalog w k fs :
  redis self = Some c →
  faults w = replicate k false ++ true :: fs →
  (k < length catalog)%nat →
  NoDup (id <$> catalog) →
  let r := Recommender.clear_purchases self catalog w in
  r.1 = Raise RedisError ∧
  log r.2 = log w ++ ((λ p, DEL (Recommender.get_product_key (id p)))
                        <$> take (S k) catalog) ∧
  (∀ p b, p ∈ take k catalog → score (db r.2) (id p) b = 0) ∧
  (∀ p b, p ∈ drop k catalog → score (db r.2) (id p) b = score (db w) (id p) b).
Proof.
  intros Hc Hf Hk Hnd. cbv zeta. unfold Recommender.clear_purchases.
  rewrite Hc. unfold Objects.values_list_id.
  erewrite clear_loop_fault; [|done|by rewrite length_fmap].
  cbn [fst snd db log]. rewrite <- !fmap_take. split_and!; [done| |..].
  - by rewrite <- list_fmap_compose.
  - intros p b Hp. unfold score, Redis.zset.
    rewrite lookup_cleared_in; [done|]. apply list_elem_of_fmap. eauto.
  - intros p b Hp. unfold score, Redis.zset.
    rewrite lookup_cleared_other; [done|].
    intros i (q & -> & Hq)%list_elem_of_fmap E%(inj _).
    rewrite <- (take_drop k catalog), fmap_app in Hnd.
    apply NoDup_app in Hnd as (_ & Hdisj & _).
    apply (Hdisj (id q)); [apply list_elem_of_fmap; eauto|].
    rewrite <- E. apply list_elem_of_fmap. eauto.
Qed.

(** ** What a query returns *)

Lemma zunion_acc_is_Some d keys (acc : gmap Z Z) m :
  is_Some (foldl (λ acc k, union_with (λ a b, Some (a + b)) acc (Redis.zset d k))
             acc keys !! m)
  ↔ is_Some (acc !! m) ∨ ∃ k, k ∈ keys ∧ is_Some (Redis.zset d k !! m).
Proof.
  revert acc. induction keys as [|k keys IH]; intros acc; cbn [foldl].
  - split; [by left|]. intros [?|(k & ?%elem_of_nil & _)]; done.
  - rewrite IH, lookup_union_with. split.
    + intros [H|(k' & ? & ?)].
      * destruct (acc !! m) eqn:Ea; [left; by eexists|].
        right. exists k. split; [left|].
        destruct (Redis.zset d k !! m); [by eexists|by destruct H].
      * right. exists k'. split; [by right|done].
    + intros [[a Ha]|(k' & [->|?]%elem_of_cons & [b Hb])].
      * left. rewrite Ha. destruct (Redis.zset d k !! m); by eexists.
      * left. rewrite Hb. destruct (acc !! m); by eexists.
      * right. exists k'. split; [done|by eexists].
Qed.

Lemma zunion_is_Some d ids m :
  is_Some (Redis.zunion d (Recommender.get_product_key <$> ids) !! m)
  ↔ bought_with d ids m.
Proof.
  unfold Redis.zunion, bought_with. rewrite zunion_acc_is_Some, lookup_empty.
  split.
  - intros [[? [=]]|(k & (q & -> & ?)%list_elem_of_fmap & ?)]. eauto.
  - intros (q & ? & ?). right. exists (Recommender.get_product_key q).
    split; [|done]. apply list_elem_of_fmap. eauto.
Qed.

Lemma ranking_set_bought_with d ids m :
  is_Some (ranking_set d ids !! m) → bought_with d ids m.
Proof.
  assert (H : is_Some (foldr delete
      (Redis.zunion d (Recommender.get_product_key <$> ids)) ids !! m)
    → bought_with d ids m).
  { intros [s [_ Hs]%lookup_foldr_delete_Some]. apply zunion_is_Some. by eexists. }
  destruct ids as [|p [|q ids]]; [done| |done].
  unfold ranking_set. intros Hm. exists p. split; [left|done].
Qed.

Lemma ranking_set_candidates d ids m :
  no_self_loop d → ids ≠ [] →
  is_Some (ranking_set d ids !! m) ↔ (m ∉ ids) ∧ bought_with d ids m.
Proof.
  intros Hd Hne. split.
  - intros Hm. split; [by eapply ranking_set_excludes|].
    by apply ranking_set_bought_with.
  - intros [Hm Hb].
    assert (H : is_Some (foldr delete
      (Redis.zunion d (Recommender.get_product_key <$> ids)) ids !! m)).
    { apply zunion_is_Some in Hb as [s Hs]. exists s.
      by apply lookup_foldr_delete_Some. }
    destruct ids as [|p [|q ids]]; [done| |done].
    destruct Hb as (q & ->%list_elem_of_singleton & Hq). done.
Qed.

Lemma slice_to_take {A} (l : list A) n : ∃ j, slice_to l n = take j l.
Proof. unfold slice_to. case_decide; eauto. Qed.

Lemma slice_to_all {A} (l : list A) n :
  Z.of_nat (length l) ≤ n → slice_to l n = l.
Proof.
  intros. unfold slice_to. rewrite decide_True by lia. apply take_ge. lia.
Qed.

Lemma length_zrange_of zs : length (Redis.zrange_of zs) = size zs.
Proof.
  rewrite zrange_of_perm, length_fmap. apply length_map_to_list.
Qed.

Lemma suggest_ok_resolved self c catalog products max_results w :
  redis self = Some c → no_faults w → NoDup (id <$> catalog) → products ≠ [] →
  let ids := id <$> products in
  let ranked := slice_to (Redis.zrange_of (ranking_set (db w) ids)) max_results in
  Recommender.suggest_products_for self catalog products max_results w
  = (Ok (resolved catalog ranked),
     World (after_suggest (db w) ids)
           (drop (length (suggest_calls ids)) (faults w))
           (log w ++ suggest_calls ids)).
Proof.
  intros Hc Hw Hcat Hne. cbv zeta.
  erewrite suggest_connected by (done || by apply suggestions_ok).
  apply resolve_resolved; [done|].
  eapply sublist_NoDup; [apply NoDup_zrange_of|apply slice_to_sublist].
Qed.

(** X8: every row a query returns is a row of the catalog whose product was
    bought together with one of the queried products: a query makes nothing
    up, and without co-purchase data it returns the empty list. Under the
    primary key no product is returned twice. *)
Theorem suggest_only_bought_with self catalog products max_results w :
  no_faults w → products ≠ [] →
  ∃ res w',
    Recommender.suggest_products_for self catalog products max_results w
    = (Ok res, w') ∧
    (∀ x, x ∈ res → x ∈ catalog ∧ bought_with (db w) (id <$> products) (id x)) ∧
    ((∀ m, ¬ bought_with (db w) (id <$> products) m) → res = []) ∧
    (NoDup (id <$> catalog) → NoDup (id <$> res)).
Proof.
  intros Hw Hne. destruct (redis self) as [c|] eqn:Hc.
  - erewrite suggest_connected by (done || by apply suggestions_ok).
    set (ranked := slice_to _ _).
    destruct (resolve_spec catalog ranked
      (World (after_suggest (db w) (id <$> products))
             (drop (length (suggest_calls (id <$> products))) (faults w))
             (log w ++ suggest_calls (id <$> products))))
      as (res & Hres & Hp & _).
    exists res. eexists. split; [exact Hres|].
    assert (Hin : ∀ x, x ∈ res →
      x ∈ catalog ∧ bought_with (db w) (id <$> products) (id x)).
    { intros x Hx. rewrite Hp in Hx.
      apply list_elem_of_filter in Hx as [Hx ?]. split; [done|].
      eapply elem_of_sublist in Hx; [|apply slice_to_sublist].
      by apply ranking_set_bought_with, elem_of_zrange_of. }
    split_and!; [done| |].
    + intros Hnone. destruct res as [|x res']; [done|].
      destruct (Hin x ltac:(left)) as [_ Hb]. by destruct (Hnone (id x)).
    + intros Hcat. rewrite resolve_resolved in Hres; [|done|].
      2:{ eapply sublist_NoDup; [apply NoDup_zrange_of|apply slice_to_sublist]. }
      injection Hres as <-. eapply sublist_NoDup; [|by apply resolved_ids_sublist].
      eapply sublist_NoDup; [apply NoDup_zrange_of|apply slice_to_sublist].
  - rewrite suggest_disconnected by done. exists [], w.
    split_and!; [done| |done|constructor]. by intros x ?%elem_of_nil.
Qed.

(** X9: with a limit no smaller than the number of candidates, a connected
    query returns exactly the catalog rows of the products that were bought
    together with a queried product and are not queried themselves. *)
Theorem suggest_returns_all_candidates self c catalog products max_results w :
  redis self = Some c → no_faults w → no_self_loop (db w) →
  NoDup (id <$> catalog) → products ≠ [] →
  Z.of_nat (size (ranking_set (db w) (id <$> products))) ≤ max_results →
  ∃ res w',
    Recommender.suggest_products_for self catalog products max_results w
    = (Ok res, w') ∧
    ∀ x, x ∈ res ↔
      x ∈ catalog ∧ (id x ∉ id <$> products) ∧
      bought_with (db w) (id <$> products) (id x).
Proof.
  intros Hc Hw Hd Hcat Hne Hsize.
  rewrite (suggest_ok_resolved self c) by done. eexists _, _. split; [done|].
  intros x. rewrite elem_of_resolved, slice_to_all
    by by rewrite length_zrange_of.
  rewrite elem_of_zrange_of, ranking_set_candidates;
    [done|done|by destruct products].
Qed.

(** X10: the ranked ids a query reads from the store are the best ones: no
    candidate that was left out has a higher aggregate score than one that
    was taken, whatever the limit. *)
Theorem suggestions_are_the_best products max_results w :
  no_faults w → no_self_loop (db w) → products ≠ [] →
  let ids := id <$> products in
  ∃ ranked w',
    Recommender.suggestions products max_results w = (Ok ranked, w') ∧
    ∀ r m, r ∈ ranked → m ∉ ids → bought_with (db w) ids m → m ∉ ranked →
           aggregate (db w) ids m ≤ aggregate (db w) ids r.
Proof.
  intros Hw Hd Hne ids. rewrite suggestions_ok by done. fold ids.
  eexists _, _. split; [done|]. intros r m Hr Hm Hb Hout.
  set (l := Redis.zrange_of (ranking_set (db w) ids)) in *.
  destruct (slice_to_take l max_results) as [j Hj]. rewrite Hj in Hr, Hout.
  assert (m ∈ l) as Hl.
  { apply elem_of_zrange_of, ranking_set_candidates;
      [done|subst ids; by destruct products|done]. }
  rewrite <- (take_drop j l) in Hl. apply elem_of_app in Hl as [?|Hl]; [done|].
  eapply (StronglySorted_app_1_elem_of
            (λ m1 m2, aggregate (db w) ids m2 ≤ aggregate (db w) ids m1)
            (take j l) (drop j l)); [|done..].
  rewrite take_drop. apply zrange_of_sorted. intros ??. apply ranking_set_score.
Qed.

(** ** The product page *)

Lemma suggestions_single_ok p max_results w :
  head (faults w) ≠ Some true →
  Recommender.suggestions [p] max_results w
  = (Ok (slice_to (Redis.zrange_of
                     (Redis.zset (db w) (Recommender.get_product_key (id p))))
                  max_results),
     World (db w) (tail (faults w))
           (log w ++ [ZRANGE_DESC (Recommender.get_product_key (id p))])).
Proof.
  intros Hw. unfold Recommender.suggestions. cbn [fmap list_fmap].
  by erewrite bind_Ok by by apply zrange_desc_ok.
Qed.

Lemma suggestions_single_fault p max_results w fs :
  faults w = true :: fs →
  Recommender.suggestions [p] max_results w
  = (Raise RedisError,
     World (db w) fs (log w ++ [ZRANGE_DESC (Recommender.get_product_key (id p))])).
Proof.
  intros Hw. unfold Recommender.suggestions. cbn [fmap list_fmap].
  erewrite bind_Raise; [done|]. unfold Redis.zrange_desc. by erewrite execute_fault.
Qed.

(** Finishes a goal about [resolve] on a range read: the rows are a
    rearrangement of the query's answer, and the restricted rank sequence
    under the primary key. *)
Ltac resolve_rows catalog :=
  match goal with |- context [Recommender.resolve _ ?l ?w1] =>
    let Hr := fresh "Hr" in let res := fresh "res" in
    let Hres := fresh "Hres" in let Hp := fresh "Hp" in
    pose proof (resolve_resolved catalog l w1) as Hr;
    destruct (resolve_spec catalog l w1) as (res & Hres & Hp & _);
    rewrite Hres; exists res; rewrite <- ?app_assoc; split_and!; [done..|];
    let Hcat := fresh "Hcat" in
    intros Hcat; rewrite Hres in Hr;
    assert (NoDup l) as Hl
      by (eapply sublist_NoDup; [apply NoDup_zrange_of|apply slice_to_sublist]);
    specialize (Hr Hcat Hl); by injection Hr
  end.

(** The three ways through the recommendations of the product page: the
    ping raises, the range read raises, or both succeed. *)
Lemma product_detail_cases settings catalog product w :
  let key := Recommender.get_product_key (id product) in
  let r := ShopViews.product_detail_recommended settings catalog product w in
  (head (faults w) = Some true ∧
   r = (Ok [], World (db w) (tail (faults w)) (log w ++ [PING]))) ∨
  (head (faults w) ≠ Some true ∧ head (tail (faults w)) = Some true ∧
   r = (Ok [], World (db w) (tail (tail (faults w)))
                 (log w ++ [PING; ZRANGE_DESC key]))) ∨
  (head (faults w) ≠ Some true ∧ head (tail (faults w)) ≠ Some true ∧
   ∃ res,
     r = (Ok res, World (db w) (tail (tail (faults w)))
                    (log w ++ [PING; ZRANGE_DESC key])) ∧
     res ≡ₚ Objects.filter_id_in catalog
              (slice_to (Redis.zrange_of (Redis.zset (db w) key)) 2) ∧
     (NoDup (id <$> catalog) →
      res = resolved catalog
              (slice_to (Redis.zrange_of (Redis.zset (db w) key)) 2))).
Proof.
  cbv zeta. unfold ShopViews.product_detail_recommended, try_except_RedisError.
  destruct (faults w) as [|[] fs] eqn:E.
  - right. right. split_and!; [done..|].
    erewrite bind_Ok by (apply init_ok; by rewrite E).
    erewrite suggest_connected;
      [|done|apply suggestions_single_ok; cbn [faults]; by rewrite E].
    cbn [db faults log]. rewrite E.
    resolve_rows catalog.
  - left. split; [done|].
    erewrite bind_Ok by by apply init_fault.
    by rewrite suggest_disconnected.
  - right. erewrite bind_Ok by (apply init_ok; by rewrite E).
    cbn [tail]. destruct fs as [|[] fs'].
    + right. split_and!; [done..|].
      erewrite suggest_connected;
        [|done|apply suggestions_single_ok; cbn [faults]; by rewrite E].
      cbn [db faults log]. rewrite E.
        resolve_rows catalog.
    + left. split_and!; [done..|].
      unfold Recommender.suggest_products_for. cbn [redis].
      erewrite bind_Raise;
        [|apply suggestions_single_fault; cbn [faults]; by rewrite E].
      cbn [is_RedisError db log]. by rewrite <- app_assoc.
    + right. split_and!; [done..|].
      erewrite suggest_connected;
        [|done|apply suggestions_single_ok; cbn [faults]; by rewrite E].
      cbn [db faults log]. rewrite E.
        resolve_rows catalog.
Qed.

(** X11: the recommendations of the product page never fail, whatever the
    store does: the view gets a list, the store is left as it was, at most
    the ping and one range read are issued, and the list is empty whenever
    one of the two raised. *)
Theorem product_detail_never_raises settings catalog product w :
  ∃ res w',
    ShopViews.product_detail_recommended settings catalog product w = (Ok res, w') ∧
    db w' = db w ∧
    (log w' = log w ++ [PING] ∨
     log w' = log w ++ [PING; ZRANGE_DESC (Recommender.get_product_key (id product))]) ∧
    (head (faults w) = Some true ∨ head (tail (faults w)) = Some true → res = []).
Proof.
  destruct (product_detail_cases settings catalog product w)
    as [[H1 ->]|[(H1 & H2 & ->)|(H1 & H2 & res & -> & _)]];
    eexists _, _; (split; [done|]); cbn [db log]; split_and!; eauto.
  intros [?|?]; done.
Qed.

(** X12: on a store that respects the no-self-loop invariant and a catalog
    with ids as primary key, the product page shows at most two
    recommendations, each a catalog row of a product bought together with
    the shown product and different from it, none twice, the more often
    bought one first. *)
Theorem product_detail_shows_partners settings catalog product w res w' :
  NoDup (id <$> catalog) → no_self_loop (db w) →
  ShopViews.product_detail_recommended settings catalog product w = (Ok res, w') →
  (length res ≤ 2)%nat ∧ NoDup (id <$> res) ∧
  (∀ x, x ∈ res →
     x ∈ catalog ∧ id x ≠ id product ∧ bought_with (db w) [id product] (id x)) ∧
  StronglySorted
    (λ x y, score (db w) (id product) (id y) ≤ score (db w) (id product) (id x)) res.
Proof.
  intros Hcat Hd Hrun.
  destruct (product_detail_cases settings catalog product w)
    as [[_ E]|[(_ & _ & E)|(_ & _ & res' & E & _ & Hres)]];
    cbv zeta in E; rewrite E in Hrun; injection Hrun as <- <-.
  1,2: split_and!; [simpl; lia|constructor|by intros ? ?%elem_of_nil|constructor].
  rewrite (Hres Hcat).
  set (zs := Redis.zset (db w) (Recommender.get_product_key (id product))).
  set (ranked := slice_to (Redis.zrange_of zs) 2).
  assert (Hsub : ranked `sublist_of` Redis.zrange_of zs) by apply slice_to_sublist.
  pose proof (resolved_ids_sublist catalog ranked Hcat) as Hids.
  split_and!.
  - apply sublist_length in Hids. rewrite length_fmap in Hids.
    pose proof (slice_to_length (Redis.zrange_of zs) 2). fold ranked in H.
    lia.
  - eapply sublist_NoDup; [|exact Hids].
    eapply sublist_NoDup; [apply NoDup_zrange_of|exact Hsub].
  - intros x [Hx Hr]%elem_of_resolved.
    eapply elem_of_sublist in Hr; [|exact Hsub].
    apply elem_of_zrange_of in Hr. split_and!; [done| |].
    + intros E'. rewrite E' in Hr. unfold zs in Hr. rewrite Hd in Hr.
      by destruct Hr.
    + exists (id product). split; [left|done].
  - apply (StronglySorted_fmap_inv id
      (λ m1 m2, score (db w) (id product) m2 ≤ score (db w) (id product) m1)).
    eapply StronglySorted_sublist; [by etrans|].
    apply zrange_of_sorted. intros m s Hs. unfold score. fold zs. by rewrite Hs.
Qed.

(** ** The cart page *)

Lemma init_result settings w :
  Recommender.__init__ settings w
  = (Ok {| redis := if decide (head (faults w) = Some true) then None
                    else Some settings |},
     World (db w) (tail (faults w)) (log w ++ [PING])).
Proof.
  destruct (faults w) as [|[] fs] eqn:E.
  - assert (head (faults w) ≠ Some true) as H by by rewrite E.
    rewrite (init_ok settings w H). by rewrite E.
  - rewrite (init_fault settings w fs E). done.
  - assert (head (faults w) ≠ Some true) as H by by rewrite E.
    rewrite (init_ok settings w H). by rewrite E.
Qed.

(** The cart page builds the engine twice and never takes the handler: what
    it shows is the answer of the second engine, or nothing for an empty
    cart. *)
Lemma cart_detail_unfold settings catalog cart_products w :
  let r := {| redis := if decide (head (tail (faults w)) = Some true) then None
                       else Some settings |} in
  let w2 := World (db w) (tail (tail (faults w))) (log w ++ [PING; PING]) in
  CartViews.cart_detail_recommended settings catalog cart_products w
  = if cart_products is [] then (Ok [], w2)
    else Recommender.suggest_products_for r catalog cart_products 4 w2.
Proof.
  cbv zeta. unfold CartViews.cart_detail_recommended.
  erewrite bind_Ok by apply init_result.
  erewrite (bind_Ok (try_except_RedisError _ _)).
  2:{ unfold try_except_RedisError.
      erewrite bind_Ok by apply init_result. reflexivity. }
  cbn [fst snd db faults log]. rewrite <- app_assoc. by destruct cart_products.
Qed.

(** X13: for an empty cart, or when the second ping raises, the cart page
    shows no recommendation and asks the store nothing beyond the two pings,
    whatever the first ping did. *)
Theorem cart_detail_without_query settings catalog cart_products w :
  cart_products = [] ∨ head (tail (faults w)) = Some true →
  CartViews.cart_detail_recommended settings catalog cart_products w
  = (Ok [], World (db w) (tail (tail (faults w))) (log w ++ [PING; PING])).
Proof.
  intros H. rewrite cart_detail_unfold.
  destruct cart_products as [|p ps]; [done|]. destruct H as [?|H]; [done|].
  rewrite decide_True by done. by rewrite suggest_disconnected.
Qed.

(** X14: for a cart with products, once the second ping has succeeded, a
    store call that raises during the query is not caught by the cart page:
    the exception leaves the view, after the calls before it have taken
    effect. *)
Theorem cart_detail_lets_failure_out
    settings catalog cart_products w first_ping k fs :
  cart_products ≠ [] →
  faults w = first_ping :: false :: replicate k false ++ true :: fs →
  (k < length (suggest_calls (id <$> cart_products)))%nat →
  CartViews.cart_detail_recommended settings catalog cart_products w
  = (Raise RedisError,
     World (after_calls (db w) (id <$> cart_products) k) fs
           (log w ++ [PING; PING] ++ take (S k) (suggest_calls (id <$> cart_products)))).
Proof.
  intros Hne Hf Hk. rewrite cart_detail_unfold. rewrite Hf. cbn [tail head].
  rewrite decide_False by done. destruct cart_products as [|p ps]; [done|].
  unfold Recommender.suggest_products_for. cbn [redis].
  erewrite bind_Raise; [|by apply suggestions_fault].
  cbn [db log]. by rewrite <- app_assoc.
Qed.

(** ** The cart and the session *)

Lemma deref_set_dict l d req :
  (l < length (Cart.heap req))%nat → Cart.deref (Cart.set_dict l d req) l = d.
Proof.
  intros. unfold Cart.deref, Cart.set_dict. simpl.
  by rewrite list_lookup_insert_eq.
Qed.

Lemma deref_snoc_empty h : default ∅ ((h ++ [∅ : gmap Z Cart.Item]) !! length h) = ∅.
Proof. by rewrite list_lookup_middle. Qed.

(** A new [Cart] object refers to a dict of the heap, which the session
    refers to as well and which holds what the session's cart held; a
    session with a cart that is not empty is left as it is. *)
Lemma cart_init_spec req :
  let c := (Cart.__init__ req).1 in
  let r := (Cart.__init__ req).2 in
  (Cart.cart c < length (Cart.heap r))%nat ∧
  Cart.session_cart r = Some (Cart.cart c) ∧
  Cart.deref r (Cart.cart c) = Cart.session_items req ∧
  (Cart.session_items req ≠ ∅ → r = req).
Proof.
  cbv zeta. unfold Cart.__init__, Cart.session_items.
  destruct (Cart.session_cart req) as [l|] eqn:E.
  - case_decide as Hd; simpl.
    + rewrite length_app. simpl. unfold Cart.deref at 1. simpl.
      rewrite deref_snoc_empty. split_and!; [lia|done|done|done].
    + split_and!; [|done..].
      apply lookup_lt_is_Some. unfold Cart.deref in Hd.
      destruct (Cart.heap req !! l); [by eexists|done].
  - simpl. rewrite length_app. simpl. unfold Cart.deref. simpl.
    rewrite deref_snoc_empty. split_and!; [lia|done|done|done].
Qed.

Lemma cart_add_dict str_price c product quantity override_quantity req :
  (Cart.cart c < length (Cart.heap req))%nat →
  Cart.deref (Cart.add str_price c product quantity override_quantity req) (Cart.cart c)
  = <[id product := added_item str_price (Cart.deref req (Cart.cart c))
                      product quantity override_quantity]>
      (Cart.deref req (Cart.cart c)).
Proof.
  intros Hl. unfold Cart.add. cbv zeta.
  change (Cart.deref (Cart.save ?r) ?l) with (Cart.deref r l).
  rewrite deref_set_dict by done. unfold added_item.
  set (d := Cart.deref req (Cart.cart c)).
  apply map_eq. intros i. destruct (d !! id product) as [[old text]|] eqn:E.
  - rewrite lookup_alter, lookup_insert. case_decide; [subst i|done].
    rewrite E. simpl. by destruct override_quantity.
  - rewrite alter_insert_eq. simpl.
    destruct override_quantity; [done|]. by rewrite Z.add_0_l.
Qed.


Lemma cart_total_delete (d : gmap Z Cart.Item) i :
  map_fold (λ _ item acc, Cart.quantity item + acc) 0 (delete i d)
  = map_fold (λ _ item acc, Cart.quantity item + acc) 0 d - cart_quantity d i.
Proof.
  unfold cart_quantity. destruct (d !! i) as [old|] eqn:E; simpl.
  - rewrite (map_fold_delete_L _ _ i old d); [lia|intros; lia|done].
  - rewrite delete_id by done. lia.
Qed.

(** X15: what [Cart(request).add(...)] puts into the session. The session's
    cart afterwards is the one before with the product's entry set: a new
    product enters with the given quantity and its price text, a product
    already there keeps its price text and has its quantity replaced or
    raised (by any integer, nothing is checked); the other entries are as
    before, the session is marked as modified, and the next [Cart(request)]
    works on the same dict. *)
Theorem cart_add_reaches_session
    str_price req product quantity override_quantity :
  let c := (Cart.__init__ req).1 in
  let r := Cart.add str_price c product quantity override_quantity
             (Cart.__init__ req).2 in
  Cart.session_items r
  = <[id product := added_item str_price (Cart.session_items req)
                      product quantity override_quantity]>
      (Cart.session_items req) ∧
  Cart.modified r = true ∧
  Cart.__init__ r = ({| Cart.cart := Cart.cart c;
                        Cart.coupon_id := Cart.session_coupon_id req |}, r).
Proof.
  cbv zeta. destruct (cart_init_spec req) as (Hl & Hs & Hd & _).
  set (c := (Cart.__init__ req).1) in *. set (r1 := (Cart.__init__ req).2) in *.
  pose proof (cart_add_dict str_price c product quantity override_quantity r1 Hl)
    as Hadd.
  rewrite Hd in Hadd.
  assert (Cart.session_cart
    (Cart.add str_price c product quantity override_quantity r1)
    = Some (Cart.cart c)) as Hs' by done.
  assert (Cart.session_coupon_id
    (Cart.add str_price c product quantity override_quantity r1)
    = Cart.session_coupon_id req) as Hc.
  { unfold r1, Cart.__init__. simpl.
    destruct (Cart.session_cart req); [case_decide|]; done. }
  split_and!.
  - unfold Cart.session_items at 1. by rewrite Hs'.
  - done.
  - unfold Cart.__init__ at 1. rewrite Hs', Hadd, Hc.
    rewrite decide_False; [done|]. apply insert_non_empty.
Qed.


Lemma cart_remove_dict c product req :
  (Cart.cart c < length (Cart.heap req))%nat →
  Cart.deref (Cart.remove c product req) (Cart.cart c)
  = delete (id product) (Cart.deref req (Cart.cart c)).
Proof.
  intros Hl. unfold Cart.remove. cbv zeta.
  destruct (Cart.deref req (Cart.cart c) !! id product) eqn:E.
  - change (Cart.deref (Cart.save ?r) ?l) with (Cart.deref r l).
    by rewrite deref_set_dict.
  - by rewrite delete_id.
Qed.

(** X17: what [Cart(request).remove(product)] does. The product is gone
    from the session's cart and the count drops by its quantity, the other
    entries staying; for a product that is not in the cart nothing happens at
    all, and the session is not even marked as modified. *)
Theorem cart_remove_from_session req product :
  let c := (Cart.__init__ req).1 in
  let r1 := (Cart.__init__ req).2 in
  let r2 := Cart.remove c product r1 in
  Cart.session_items r2 = delete (id product) (Cart.session_items req) ∧
  Cart.__len__ c r2
  = Cart.__len__ c r1 - cart_quantity (Cart.session_items req) (id product) ∧
  (Cart.session_items req !! id product = None → r2 = r1) ∧
  (is_Some (Cart.session_items req !! id product) → Cart.modified r2 = true).
Proof.
  cbv zeta. destruct (cart_init_spec req) as (Hl & Hs & Hd & _).
  set (c := (Cart.__init__ req).1) in *. set (r1 := (Cart.__init__ req).2) in *.
  pose proof (cart_remove_dict c product r1 Hl) as Hrem. rewrite Hd in Hrem.
  assert (Cart.session_cart (Cart.remove c product r1) = Some (Cart.cart c)) as Hs'.
  { unfold Cart.remove. cbv zeta.
    by destruct (Cart.deref r1 (Cart.cart c) !! id product). }
  split_and!.
  - unfold Cart.session_items at 1. by rewrite Hs'.
  - unfold Cart.__len__. by rewrite Hrem, cart_total_delete, Hd.
  - intros Hn. unfold Cart.remove. cbv zeta. by rewrite Hd, Hn.
  - intros [item Hi]. unfold Cart.remove. cbv zeta. by rewrite Hd, Hi.
Qed.

(** X18: what [clear] does and does not do. The session loses its cart and
    is marked as modified, and the next [Cart(request)] starts empty; the
    [Cart] object that was cleared still refers to the old dict: its count
    is what it was, what is added through it no longer reaches the session,
    and clearing through it once more is a [KeyError]. *)
Theorem cart_clear_leaves_object_stale str_price req :
  let c := (Cart.__init__ req).1 in
  let r1 := (Cart.__init__ req).2 in
  ∃ r2,
    Cart.clear c r1 = Some r2 ∧
    Cart.session_items r2 = ∅ ∧ Cart.modified r2 = true ∧
    Cart.__len__ (Cart.__init__ r2).1 (Cart.__init__ r2).2 = 0 ∧
    Cart.__len__ c r2 = Cart.__len__ c r1 ∧
    Cart.clear c r2 = None ∧
    ∀ product quantity override_quantity,
      Cart.session_items
        (Cart.add str_price c product quantity override_quantity r2) = ∅.
Proof.
  cbv zeta. destruct (cart_init_spec req) as (Hl & Hs & Hd & _).
  unfold Cart.clear. rewrite Hs. eexists. split; [done|].
  split_and!; try done.
  unfold Cart.__len__, Cart.__init__. simpl. unfold Cart.deref. simpl.
  by rewrite deref_snoc_empty.
Qed.

(** X19: with the store answering, the cart page shows at most four
    recommendations, each a catalog row of a product that was bought together
    with a product of the cart and is not in the cart itself. *)
Theorem cart_detail_shows_partners settings catalog cart_products w :
  no_faults w → no_self_loop (db w) → NoDup (id <$> catalog) →
  cart_products ≠ [] →
  ∃ res w',
    CartViews.cart_detail_recommended settings catalog cart_products w
    = (Ok res, w') ∧
    (length res ≤ 4)%nat ∧
    ∀ x, x ∈ res →
      x ∈ catalog ∧ (id x ∉ id <$> cart_products) ∧
      bought_with (db w) (id <$> cart_products) (id x).
Proof.
  intros Hw Hd Hcat Hne. rewrite cart_detail_unfold.
  assert (head (tail (faults w)) ≠ Some true) as H2.
  { apply (no_faults_head (World (db w) (tail (faults w)) (log w))).
    by apply no_faults_tail. }
  rewrite decide_False by done.
  destruct cart_products as [|p ps] eqn:E; [done|]. rewrite <- E in *.
  rewrite (suggest_ok_resolved _ settings); [|done| |done|by rewrite E].
  2:{ apply no_faults_tail. by apply (no_faults_tail (db w) _ (log w)). }
  cbn [db]. eexists _, _. split; [done|].
  set (ranked := slice_to _ 4).
  assert (Hsub : ranked `sublist_of`
    Redis.zrange_of (ranking_set (db w) (id <$> cart_products)))
    by apply slice_to_sublist.
  split.
  - pose proof (resolved_ids_sublist catalog ranked Hcat) as Hids.
    apply sublist_length in Hids. rewrite length_fmap in Hids.
    pose proof (slice_to_length
      (Redis.zrange_of (ranking_set (db w) (id <$> cart_products))) 4).
    fold ranked in H. lia.
  - intros x [Hx Hr]%elem_of_resolved. split; [done|].
    eapply elem_of_sublist in Hr; [|exact Hsub].
    apply elem_of_zrange_of, ranking_set_candidates in Hr; [done..|].
    rewrite E. done.
Qed.

(** ** The further properties on the sample data *)

Lemma no_self_loop_sample_world : no_self_loop (db sample_world).
Proof. apply reachable_no_self_loop, reachable_bought, reachable_empty. Qed.

Lemma NoDup_sample_catalog : NoDup (id <$> sample_catalog).
Proof. compute_done. Qed.

Lemma products_bought_any_basket_witness :
  redis connected = Some sample_settings ∧ no_faults empty_world ∧
  score (db (Recommender.products_bought connected [tea; tea; mug] empty_world).2) 1 2
  = score (db empty_world) 1 2 + 2.
Proof.
  assert (H : no_faults empty_world) by constructor.
  split_and!; [done..|].
  exact (products_bought_any_basket connected sample_settings [tea; tea; mug]
           empty_world 1 2 eq_refl H).
Defined.

Lemma products_bought_one_product_witness :
  (∀ x y, x ∈ [tea; tea] → y ∈ [tea; tea] → id x = id y) ∧
  Recommender.products_bought connected [tea; tea] (second_call_fails ∅)
  = (Ok (), second_call_fails ∅).
Proof.
  assert (H : ∀ x y, x ∈ [tea; tea] → y ∈ [tea; tea] → id x = id y).
  { intros x y Hx Hy.
    assert (∀ z, z ∈ [tea; tea] → z = tea) as Hz.
    { intros z Hin. repeat (apply elem_of_cons in Hin as [->|Hin]; [done|]).
      by apply elem_of_nil in Hin. }
    by rewrite (Hz x Hx), (Hz y Hy). }
  split; [exact H|].
  exact (products_bought_one_product connected [tea; tea] (second_call_fails ∅) H).
Defined.

Lemma clear_purchases_scope_witness :
  redis connected = Some sample_settings ∧ no_faults sample_world ∧
  score (db (Recommender.clear_purchases connected [tea; mug] sample_world).2) 1 2 = 0 ∧
  score (db (Recommender.clear_purchases connected [tea; mug] sample_world).2) 3 1
  = score (db sample_world) 3 1.
Proof.
  destruct (clear_purchases_scope connected sample_settings [tea; mug]
              sample_world eq_refl no_faults_sample_world) as (H1 & H2 & _).
  split_and!; [done|apply no_faults_sample_world|..].
  - apply (H1 tea 2). compute_done.
  - apply (H2 3 1). compute_done.
Defined.

Lemma clear_purchases_twice_witness :
  redis connected = Some sample_settings ∧ no_faults sample_world ∧
  db (Recommender.clear_purchases connected sample_catalog
        (Recommender.clear_purchases connected sample_catalog sample_world).2).2
  = db (Recommender.clear_purchases connected sample_catalog sample_world).2.
Proof.
  split_and!; [done|apply no_faults_sample_world|].
  exact (proj2 (clear_purchases_twice connected sample_settings sample_catalog
                  sample_world eq_refl no_faults_sample_world)).
Defined.

Lemma clear_purchases_stops_at_failure_witness :
  redis connected = Some sample_settings ∧
  faults (second_call_fails (db sample_world)) = replicate 1 false ++ true :: [] ∧
  (1 < length sample_catalog)%nat ∧ NoDup (id <$> sample_catalog) ∧
  (Recommender.clear_purchases connected sample_catalog
     (second_call_fails (db sample_world))).1 = Raise RedisError ∧
  score (db (Recommender.clear_purchases connected sample_catalog
               (second_call_fails (db sample_world))).2) 1 2
  = score (db sample_world) 1 2.
Proof.
  assert (H3 : (1 < length sample_catalog)%nat) by (simpl; lia).
  destruct (clear_purchases_stops_at_failure connected sample_settings
              sample_catalog (second_call_fails (db sample_world)) 1 []
              eq_refl eq_refl H3 NoDup_sample_catalog) as (H & _ & _ & Hkeep).
  split_and!; [done|done|exact H3|apply NoDup_sample_catalog|exact H|].
  apply (Hkeep tea 2). compute_done.
Defined.

Lemma suggest_only_bought_with_witness :
  no_faults sample_world ∧ [tea; mug] ≠ [] ∧
  ∃ res w',
    Recommender.suggest_products_for connected sample_catalog [tea; mug] 5
      sample_world = (Ok res, w') ∧
    ∀ x, x ∈ res →
      x ∈ sample_catalog ∧ bought_with (db sample_world) (id <$> [tea; mug]) (id x).
Proof.
  split_and!; [apply no_faults_sample_world|done|].
  destruct (suggest_only_bought_with connected sample_catalog [tea; mug] 5
              sample_world no_faults_sample_world ltac:(done))
    as (res & w' & H & Hin & _).
  exists res, w'. split; [exact H|exact Hin].
Defined.

Lemma suggest_returns_all_candidates_witness :
  redis connected = Some sample_settings ∧ no_faults sample_world ∧
  no_self_loop (db sample_world) ∧ NoDup (id <$> sample_catalog) ∧
  [tea] ≠ [] ∧
  Z.of_nat (size (ranking_set (db sample_world) (id <$> [tea]))) ≤ 2 ∧
  ∃ res w',
    Recommender.suggest_products_for connected sample_catalog [tea] 2 sample_world
    = (Ok res, w') ∧
    ∀ x, x ∈ res ↔
      x ∈ sample_catalog ∧ (id x ∉ id <$> [tea]) ∧
      bought_with (db sample_world) (id <$> [tea]) (id x).
Proof.
  assert (H6 : Z.of_nat (size (ranking_set (db sample_world) (id <$> [tea]))) ≤ 2)
    by (vm_compute; discriminate).
  split_and!; [done|apply no_faults_sample_world|apply no_self_loop_sample_world
              |apply NoDup_sample_catalog|done|exact H6|].
  exact (suggest_returns_all_candidates connected sample_settings sample_catalog
           [tea] 2 sample_world eq_refl no_faults_sample_world
           no_self_loop_sample_world NoDup_sample_catalog ltac:(done) H6).
Defined.

Lemma suggestions_are_the_best_witness :
  no_faults sample_world ∧ no_self_loop (db sample_world) ∧ [tea] ≠ [] ∧
  ∃ ranked w',
    Recommender.suggestions [tea] 1 sample_world = (Ok ranked, w') ∧
    ∀ r m, r ∈ ranked → m ∉ id <$> [tea] →
           bought_with (db sample_world) (id <$> [tea]) m → m ∉ ranked →
           aggregate (db sample_world) (id <$> [tea]) m
           ≤ aggregate (db sample_world) (id <$> [tea]) r.
Proof.
  split_and!; [apply no_faults_sample_world|apply no_self_loop_sample_world|done|].
  exact (suggestions_are_the_best [tea] 1 sample_world no_faults_sample_world
           no_self_loop_sample_world ltac:(done)).
Defined.

Lemma product_detail_shows_partners_witness :
  NoDup (id <$> sample_catalog) ∧ no_self_loop (db sample_world) ∧
  ShopViews.product_detail_recommended sample_settings sample_catalog tea sample_world
  = (Ok [pot; mug],
     World (db sample_world) []
       (log sample_world ++ [PING; ZRANGE_DESC "product:1:purchased_with"])) ∧
  (length [pot; mug] ≤ 2)%nat ∧ NoDup (id <$> [pot; mug]).
Proof.
  assert (H3 : ShopViews.product_detail_recommended sample_settings sample_catalog
                 tea sample_world
    = (Ok [pot; mug],
       World (db sample_world) []
         (log sample_world ++ [PING; ZRANGE_DESC "product:1:purchased_with"])))
    by (vm_compute; reflexivity).
  destruct (product_detail_shows_partners sample_settings sample_catalog tea
              sample_world _ _ NoDup_sample_catalog no_self_loop_sample_world H3)
    as (H4 & H5 & _).
  split_and!; [apply NoDup_sample_catalog|apply no_self_loop_sample_world
              |exact H3|exact H4|exact H5].
Defined.

Lemma cart_detail_without_query_witness :
  ([] = @nil Product ∨ head (tail (faults sample_world)) = Some true) ∧
  CartViews.cart_detail_recommended sample_settings sample_catalog [] sample_world
  = (Ok [], World (db sample_world) (tail (tail (faults sample_world)))
              (log sample_world ++ [PING; PING])).
Proof.
  split; [by left|].
  apply (cart_detail_without_query sample_settings sample_catalog [] sample_world).
  by left.
Defined.

Lemma cart_detail_lets_failure_out_witness :
  [tea; mug] ≠ [] ∧
  faults (World (db sample_world) [true; false; false; true] [])
  = true :: false :: replicate 1 false ++ true :: [] ∧
  (1 < length (suggest_calls (id <$> [tea; mug])))%nat ∧
  (CartViews.cart_detail_recommended sample_settings sample_catalog [tea; mug]
     (World (db sample_world) [true; false; false; true] [])).1
  = Raise RedisError.
Proof.
  assert (H3 : (1 < length (suggest_calls (id <$> [tea; mug])))%nat)
    by (simpl; lia).
  split_and!; [done|done|exact H3|].
  by rewrite (cart_detail_lets_failure_out sample_settings sample_catalog
    [tea; mug] (World (db sample_world) [true; false; false; true] [])
    true 1 [] ltac:(done) eq_refl H3).
Defined.

Lemma cart_detail_shows_partners_witness :
  no_faults sample_world ∧ no_self_loop (db sample_world) ∧
  NoDup (id <$> sample_catalog) ∧ [tea; mug] ≠ [] ∧
  ∃ res w',
    CartViews.cart_detail_recommended sample_settings sample_catalog [tea; mug]
      sample_world = (Ok res, w') ∧
    (length res ≤ 4)%nat ∧
    ∀ x, x ∈ res →
      x ∈ sample_catalog ∧ (id x ∉ id <$> [tea; mug]) ∧
      bought_with (db sample_world) (id <$> [tea; mug]) (id x).
Proof.
  split_and!; [apply no_faults_sample_world|apply no_self_loop_sample_world
              |apply NoDup_sample_catalog|done|].
  exact (cart_detail_shows_partners sample_settings sample_catalog [tea; mug]
           sample_world no_faults_sample_world no_self_loop_sample_world
           NoDup_sample_catalog ltac:(done)).
Defined.

(** ** Keys, and what recording leaves behind *)

(** X20: key names keep the data apart: two products share their key only
    if they are the same product, and no transient key of a query is the key
    of a product. *)
Theorem keys_are_separate a b ids :
  (Recommender.get_product_key a = Recommender.get_product_key b ↔ a = b) ∧
  Recommender.tmp_key ids ≠ Recommender.get_product_key a.
Proof.
  split; [split; [apply (inj _)|by intros ->]|apply tmp_key_not_product_key].
Qed.

Lemma incr_member d p a b :
  is_Some (Redis.zset d (Recommender.get_product_key a) !! b) ∨ p = (a, b) →
  is_Some (Redis.zset (incr d p) (Recommender.get_product_key a) !! b).
Proof.
  intros H. destruct p as [x y]. unfold incr, Redis.zset in *. simpl.
  destruct (decide (x = a)) as [->|Hx].
  - rewrite lookup_insert_eq. simpl. destruct (decide (y = b)) as [->|Hy].
    + rewrite lookup_insert_eq. by eexists.
    + rewrite lookup_insert_ne by done. destruct H as [?|E]; [done|congruence].
  - rewrite lookup_insert_ne by (by intros ?%(inj _)).
    destruct H as [?|E]; [done|congruence].
Qed.

Lemma foldl_incr_member ps d a b :
  is_Some (Redis.zset d (Recommender.get_product_key a) !! b) ∨ (a, b) ∈ ps →
  is_Some (Redis.zset (foldl incr d ps) (Recommender.get_product_key a) !! b).
Proof.
  revert d. induction ps as [|p ps IH]; intros d; cbn [foldl].
  - intros [?|?%elem_of_nil]; done.
  - intros [H|[E|H]%elem_of_cons]; apply IH.
    + left. apply incr_member. by left.
    + left. apply incr_member. by right.
    + by right.
Qed.

(** X21: what is recorded is found. After a basket has been recorded, the
    query for one of its products, with a limit that covers its candidates,
    returns every other product of the basket that the catalog holds. *)
Theorem recorded_partners_are_suggested
    self c catalog products p x max_results w :
  redis self = Some c → no_faults w → no_self_loop (db w) →
  NoDup (id <$> catalog) →
  p ∈ products → x ∈ products → x ∈ catalog → id x ≠ id p →
  let w1 := (Recommender.products_bought self products w).2 in
  Z.of_nat (size (ranking_set (db w1) [id p])) ≤ max_results →
  ∃ res w',
    Recommender.suggest_products_for self catalog [p] max_results w1
    = (Ok res, w') ∧ x ∈ res.
Proof.
  intros Hc Hw Hd Hcat Hp Hx Hxc Hne w1 Hsize.
  assert (no_self_loop (db w1)) as Hd1 by by apply products_bought_no_self_loop.
  assert (w1 = World (foldl incr (db w) (pairs (id <$> products)))
                 (drop (length (pairs (id <$> products))) (faults w))
                 (log w ++ (incr_call <$> pairs (id <$> products)))) as Hw1.
  { unfold w1. erewrite products_bought_pairs by done.
    by rewrite incr_loop_ok. }
  assert (no_faults w1) as Hf1 by (rewrite Hw1; by apply no_faults_drop).
  rewrite (suggest_ok_resolved self c) by done.
  eexists _, _. split; [done|].
  apply elem_of_resolved. split; [done|].
  rewrite slice_to_all by by rewrite length_zrange_of.
  apply elem_of_zrange_of. cbn [fmap list_fmap ranking_set].
  rewrite Hw1. cbn [db]. apply foldl_incr_member. right.
  apply elem_of_pairs. split_and!; [by apply list_elem_of_fmap_2..|done].
Qed.

(** X22: as long as every store call of every recording succeeds, the index
    stays symmetric and counts from zero: the score of [b] for [a] is the
    score of [a] for [b], and no score is negative. *)
Theorem recorded_scores_symmetric w a b :
  recorded w → score (db w) a b = score (db w) b a ∧ 0 ≤ score (db w) a b.
Proof.
  intros Hr. revert a b. induction Hr as [|self products w _ IH Hw]; intros a b.
  - unfold score, Redis.zset. simpl. by rewrite !lookup_empty.
  - destruct (IH a b) as [Hsym Hpos]. destruct (redis self) as [c|] eqn:Hc.
    + erewrite products_bought_pairs by done. rewrite incr_loop_ok by done.
      cbn [snd db]. rewrite !score_foldl_incr_count. unfold pairs.
      rewrite !count_pairs. rewrite Hsym.
      destruct (decide (a = b)) as [->|?].
      * rewrite decide_True by done. lia.
      * rewrite decide_False by done. lia.
    + unfold Recommender.products_bought. by rewrite Hc.
Qed.

Lemma recorded_sample_world : recorded sample_world.
Proof.
  apply (recorded_bought connected [tea; mug; pot] (World ∅ [] []));
    constructor.
Qed.

Lemma recorded_partners_are_suggested_witness :
  redis connected = Some sample_settings ∧ no_faults empty_world ∧
  no_self_loop (db empty_world) ∧ NoDup (id <$> sample_catalog) ∧
  tea ∈ [tea; mug; pot] ∧ mug ∈ [tea; mug; pot] ∧ mug ∈ sample_catalog ∧
  id mug ≠ id tea ∧
  Z.of_nat (size (ranking_set (db sample_world) [id tea])) ≤ 5 ∧
  ∃ res w',
    Recommender.suggest_products_for connected sample_catalog [tea] 5 sample_world
    = (Ok res, w') ∧ mug ∈ res.
Proof.
  assert (H2 : no_faults empty_world) by constructor.
  assert (H3 : no_self_loop (db empty_world))
    by apply reachable_no_self_loop, reachable_empty.
  assert (H5 : tea ∈ [tea; mug; pot]) by compute_done.
  assert (H6 : mug ∈ [tea; mug; pot]) by compute_done.
  assert (H7 : mug ∈ sample_catalog) by compute_done.
  assert (H8 : id mug ≠ id tea) by done.
  assert (H9 : Z.of_nat (size (ranking_set (db sample_world) [id tea])) ≤ 5)
    by (vm_compute; discriminate).
  split_and!; [done|exact H2|exact H3|apply NoDup_sample_catalog|exact H5
              |exact H6|exact H7|exact H8|exact H9|].
  exact (recorded_partners_are_suggested connected sample_settings
           sample_catalog [tea; mug; pot] tea mug 5 empty_world eq_refl H2 H3
           NoDup_sample_catalog H5 H6 H7 H8 H9).
Defined.

Lemma recorded_scores_symmetric_witness :
  recorded sample_world ∧
  score (db sample_world) 1 2 = score (db sample_world) 2 1 ∧
  0 ≤ score (db sample_world) 1 2.
Proof.
  split; [apply recorded_sample_world|].
  exact (recorded_scores_symmetric sample_world 1 2 recorded_sample_world).
Defined.
